(** * packages/mdx/src/utils/build-mdx.ts

    A shallow embedding of [buildMDX], of the compiler cache it keeps and of
    the [remarkInclude] transform, with the properties of the specification
    stated against them. *)

From Stdlib Require Import String Ascii List Arith Lia Permutation.
From stdpp Require Import base option list sorting gmap strings.

Open Scope string_scope.
Open Scope list_scope.

(** ** Strings *)

(** [s.slice(n)] *)
Fixpoint strDrop (n : nat) (s : string) : string :=
  match n, s with
  | O, _ => s
  | S n', EmptyString => EmptyString
  | S n', String _ s' => strDrop n' s'
  end.

(** [String.prototype.endsWith]: the last [search.length] code units of [s]
    are compared with [search]; a search string longer than [s] never
    matches. *)
Definition endsWith (s search : string) : bool :=
  (String.length search <=? String.length s)%nat
  && String.eqb (strDrop (String.length s - String.length search) s) search.

(** ** Errors and promises *)

Inductive Error :=
| TypeError (msg : string)      (* raised by the runtime itself *)
| HostError (msg : string).     (* raised by an external collaborator *)

(** A settled promise. A synchronous [throw] is kept apart from a rejection:
    it is the [inl] of the monad below. *)
Inductive Promise (A : Type) :=
| Fulfilled (a : A)
| Rejected (e : Error).
Arguments Fulfilled {A} a.
Arguments Rejected {A} e.

(** Computations over a mutable store [St] that may throw; the store
    survives the throw. *)
Definition M (St A : Type) : Type := St → (Error + A) * St.

Definition ret {St A} (a : A) : M St A := λ s, (inr a, s).
Definition throw {St A} (e : Error) : M St A := λ s, (inl e, s).
Definition bind {St A B} (m : M St A) (k : A → M St B) : M St B :=
  λ s, match m s with
       | (inl e, s') => (inl e, s')
       | (inr a, s') => k a s'
       end.
Definition gets {St A} (f : St → A) : M St A := λ s, (inr (f s), s).
Definition modify {St} (f : St → St) : M St () := λ s, (inr (), f s).

Global Instance M_ret {St} : MRet (M St) := λ A, ret.
Global Instance M_bind {St} : MBind (M St) := λ A B k m, bind m k.

(** ** The syntax tree (unist / mdast)

    A node is a JavaScript object: apart from [type] every property may be
    absent, and [Object.assign] tells an absent property from a present one.
    [name] is [string | null] on JSX elements, hence the inner option. *)

Record Point := { line : nat; column : nat }.
Record Position := { pstart : Point; pend : Point }.

#[warnings="-register-all"]
Inductive Node := mkNode {
  type : string;
  name : option (option string);
  attributes : option (list (string * option string));
  value : option string;
  children : option (list Node);
  position : option Position;
}.

(** ** Options of [buildMDX] *)

Inductive Format := md | mdx.

Global Instance Format_eq_dec : EqDecision Format.
Proof. solve_decision. Defined.

Definition formatString (f : Format) : string :=
  match f with md => "md" | mdx => "mdx" end.

Inductive OutputFormat := program | function_body.

Inductive Plugin :=
| remarkIncludePlugin
| userPlugin (id : nat).

(** [interface CompilerOptions]: the handle of a dependency recorder. *)
Record CompilerOptions := { recorder : nat }.

(** [interface MDXOptions extends ProcessorOptions]. [format] is
    ['md' | 'mdx' | null | undefined]: [None] stands for both [null] and
    [undefined], which the code does not tell apart. For [outputFormat] and
    [development] the object literal of lines 110-120 does tell an absent
    property from one that is present and [undefined]: the outer option is
    the presence of the property, the inner one its value. *)
Record MDXOptions := {
  collection : option string;
  filePath : option string;
  frontmatter : option (list (string * string));
  data : option (list (string * string));
  _compiler : option CompilerOptions;
  format : option Format;
  outputFormat : option (option OutputFormat);
  development : option (option bool);
  remarkPlugins : option (list Plugin);
  otherOptions : list (string * string);
}.

(** Lines 99-103 of [buildMDX]. An empty [filePath] is falsy, like an absent
    one. *)
Definition truthy (s : option string) : bool :=
  match s with
  | Some s => negb (String.eqb s "")
  | None => false
  end.

Definition resolveFormat (options : MDXOptions) : Format :=
  let format0 := format options in
  let format1 :=
    match format0, filePath options with
    | None, Some p =>
        if truthy (Some p)
        then Some (if endsWith p ".mdx" then mdx else md)
        else format0
    | _, _ => format0
    end in
  match format1 with
  | Some f => f
  | None => mdx
  end.

(** [cacheKey] *)
Definition cacheKey (group format : string) : string :=
  group +:+ ":" +:+ format.

(** ** The compiler and its collaborators *)

(** The object handed to [createProcessor] (lines 110-120). *)
Record ProcessorOptions := {
  p_outputFormat : option OutputFormat;
  p_development : option bool;
  p_collection : option string;
  p__compiler : option CompilerOptions;
  p_otherOptions : list (string * string);
  p_remarkPlugins : list Plugin;
  p_format : Format;
}.

(** [type Processor]. Two processors are the same object when they have the
    same [pid]: [createProcessor] numbers the instances it makes. *)
Record Processor := { pid : nat; settings : ProcessorOptions }.

(** The metadata bag of a file (lines 131-135). *)
Record FileData := {
  dataEntries : list (string * string);
  dataFrontmatter : option (list (string * string));
  data_compiler : option CompilerOptions;
}.

Record VFile := {
  vvalue : string;
  vpath : option string;
  vdata : FileData;
}.

(** What the module imports and does not define: [@mdx-js/mdx], [node:fs],
    [node:path], [gray-matter], the transforms of the caller and the
    environment of the process. [parse] is the parser of a processor, the
    one [this.parse] calls; [ownTransforms] stands for the transforms a
    processor of [@mdx-js/mdx] runs ahead of [remarkPlugins]. *)
Class Host := {
  NODE_ENV : option string;
  createProcessor_check : ProcessorOptions → option Error;
  parse : ProcessorOptions → string → Error + Node;
  ownTransforms : ProcessorOptions → Node → Node;
  userTransform : nat → Node → VFile → Error + Node;
  compile : ProcessorOptions → Node → VFile → Error + string;
  readFile : string → Error + string;
  matter : string → Error + string;
  dirname : string → string;
  resolve : string → string → string;
}.

(** ** The store *)

(** An entry of [cache] (line 13). *)
Record CacheEntry := { processor : Processor; configHash : string }.

(** [cache] itself, the number of calls of [createProcessor] so far, the
    reads issued with [fs.readFile] and the calls of [addDependency]. *)
Record World := {
  cache : gmap string CacheEntry;
  constructed : nat;
  reads : list string;
  dependencies : list (nat * string);
}.

Definition emptyWorld : World :=
  {| cache := ∅; constructed := 0; reads := []; dependencies := [] |}.

Definition cache_set (key : string) (entry : CacheEntry) (w : World) : World :=
  {| cache := <[key := entry]> (cache w); constructed := constructed w;
     reads := reads w; dependencies := dependencies w |}.

Definition issueRead (target : string) (w : World) : World :=
  {| cache := cache w; constructed := constructed w;
     reads := reads w ++ [target]; dependencies := dependencies w |}.

Definition addDependency (c : CompilerOptions) (file : string) (w : World) : World :=
  {| cache := cache w; constructed := constructed w; reads := reads w;
     dependencies := dependencies w ++ [(recorder c, file)] |}.

(** ** Tree access *)

Definition isType (t : string) (n : Node) : bool := String.eqb (type n) t.

(** The node reached from [n] by the child indices [p]. *)
Fixpoint node_at (p : list nat) (n : Node) : option Node :=
  match p with
  | [] => Some n
  | i :: p' =>
      match children n with
      | Some cs => match cs !! i with Some c => node_at p' c | None => None end
      | None => None
      end
  end.

(** In-place update of the node at [p]. *)
Fixpoint update_at (p : list nat) (f : Node → Node) (n : Node) : Node :=
  match p with
  | [] => f n
  | i :: p' =>
      match children n with
      | Some cs =>
          mkNode (type n) (name n) (attributes n) (value n)
                 (Some (alter (update_at p' f) i cs)) (position n)
      | None => n
      end
  end.

(** [Object.assign(target, source)]: every own property of [source] is
    written to [target]; the properties [source] lacks stay. *)
Definition assignField {A} (target source : option A) : option A :=
  match source with
  | Some v => Some v
  | None => target
  end.

Definition Object_assign (target source : Node) : Node :=
  {| type := type source;
     name := assignField (name target) (name source);
     attributes := assignField (attributes target) (attributes source);
     value := assignField (value target) (value source);
     children := assignField (children target) (children source);
     position := assignField (position target) (position source) |}.

(** ** [visit] of unist-util-visit

    Depth first, parents before children, children in order; the visitor
    runs on the nodes that pass the test and answers ['skip'] or nothing. *)

Inductive VisitorResult := CONTINUE | SKIP.

Section Visit.
Context {St : Type}.
Variable test : Node → bool.
Variable visitor : list nat → Node → M St VisitorResult.

Section Children.
Variable visitChild : nat → Node → M St ().

Fixpoint visitChildren (i : nat) (cs : list Node) : M St () :=
  match cs with
  | [] => ret ()
  | c :: cs' => λ s,
      match visitChild i c s with
      | (inl e, s') => (inl e, s')
      | (inr _, s') => visitChildren (S i) cs' s'
      end
  end.
End Children.

Fixpoint visit (at_ : list nat) (node : Node) {struct node} : M St () :=
  λ s,
    match (if test node then visitor at_ node s else (inr CONTINUE, s)) with
    | (inl e, s') => (inl e, s')
    | (inr SKIP, s') => (inr (), s')
    | (inr CONTINUE, s') =>
        match node with
        | mkNode _ _ _ _ (Some cs) _ =>
            visitChildren (λ i c, visit (at_ ++ [i]) c) 0 cs s'
        | mkNode _ _ _ _ None _ => (inr (), s')
        end
    end.
End Visit.

(** ** [remarkInclude] *)

(** A queued resolution: the closure keeps the node and the path it reads.
    The node is named by its place in the tree: the tree is not shared, and
    no callback writes above or below the node of another ([located_apart]
    below), so a place names the same object until its own callback runs. *)
Record Task := { site : list nat; targetPath : string }.

Global Instance Task_eq_dec : EqDecision Task.
Proof. solve_decision. Defined.

Section Include.
Context `{Host}.

(** [path.dirname] and [path.resolve] validate that every argument is a
    string. *)
Definition path_dirname (p : option string) : Error + string :=
  match p with
  | Some p => inr (dirname p)
  | None => inl (TypeError "ERR_INVALID_ARG_TYPE")
  end.

Definition path_resolve (dir : string) (specifier : option string) : Error + string :=
  match specifier with
  | Some s => inr (resolve dir s)
  | None => inl (TypeError "ERR_INVALID_ARG_TYPE")
  end.

Definition isJsxFlow : Node → bool := isType "mdxJsxFlowElement".

Definition isIncludeName (n : Node) : bool :=
  match name n with
  | Some (Some s) => String.eqb s "include"
  | _ => false
  end.

(** The visitor of lines 57-79. The state is the queue and the store;
    [fs.readFile] is called, and the read issued, when the task is
    queued. *)
Definition includeVisitor (file : VFile) (at_ : list nat) (node : Node)
  : M (list Task * World) VisitorResult :=
  if isIncludeName node then
    match children node with
    | None => throw (TypeError "Cannot read properties of undefined (reading 'at')")
    | Some cs =>
        match head cs with
        | None => ret CONTINUE
        | Some child =>
            if negb (isType "text" child) then ret CONTINUE
            else
              let specifier := value child in
              match path_dirname (vpath file) with
              | inl e => throw e
              | inr dir =>
                  match path_resolve dir specifier with
                  | inl e => throw e
                  | inr target =>
                      modify (λ '(queue, w),
                        (queue ++ [{| site := at_; targetPath := target |}],
                         issueRead target w));;
                      mret SKIP
                  end
              end
        end
    end
  else mret SKIP.

(** The walk of the transform, from an empty queue. *)
Definition walk (file : VFile) (tree : Node) (w : World)
  : (Error + ()) * (list Task * World) :=
  visit isJsxFlow (includeVisitor file) [] tree ([], w).

(** The tasks in the queue when the walk ends. *)
Definition located (file : VFile) (tree : Node) (w : World) : list Task :=
  (walk file tree w).2.1.

(** The order in which the pending reads complete is the scheduler's: at
    each step [sched] names one of the reads still pending. *)
Fixpoint complete (n : nat) (sched : list nat) (pending : list Task) : list Task :=
  match n with
  | O => []
  | S n' =>
      let k := hd 0 sched mod length pending in
      match pending !! k with
      | None => []
      | Some t => t :: complete n' (tl sched) (delete k pending)
      end
  end.

Definition completionOrder (sched : list nat) (queue : list Task) : list Task :=
  complete (length queue) sched queue.

(** Lines 67-68: what the read, the front-matter splitter and the parser
    of the processor make of a target. *)
Definition resolveInclude (proc : Processor) (t : Task) : Error + Node :=
  match readFile (targetPath t) with
  | inl e => inl e
  | inr content =>
      match matter content with
      | inl e => inl e
      | inr body => parse (settings proc) body
      end
  end.

(** The callback of one read (lines 67-74). *)
Definition settle (proc : Processor) (file : VFile) (t : Task)
  : M (Node * World) () :=
  λ '(tree, w),
    match resolveInclude proc t with
    | inl e => (inl e, (tree, w))
    | inr parsed =>
        let w' :=
          match data_compiler (vdata file) with
          | Some c => addDependency c (targetPath t) w
          | None => w
          end in
        (inr (), (update_at (site t) (λ node, Object_assign node parsed) tree, w'))
    end.

(** [Promise.all]: every callback runs, in completion order; the first
    rejection is the one reported. *)
Fixpoint settleAll (proc : Processor) (file : VFile) (order : list Task)
    (st : Node * World) : option Error * (Node * World) :=
  match order with
  | [] => (None, st)
  | t :: order' =>
      let '(r, st1) := settle proc file t st in
      let '(later, st2) := settleAll proc file order' st1 in
      (match r with inl e => Some e | inr _ => later end, st2)
  end.

(** The transformer: its outcome, the tree as the callbacks leave it and
    the store. *)
Definition runIncludes (proc : Processor) (sched : list nat) (tree : Node)
    (file : VFile) (w : World) : (Error + ()) * (Node * World) :=
  let '(walked, (queue, w1)) := walk file tree w in
  let '(failed, st) := settleAll proc file (completionOrder sched queue) (tree, w1) in
  (match walked, failed with
   | inl e, _ => inl e
   | inr _, Some e => inl e
   | inr _, None => inr ()
   end, st).

Definition treeAfter (proc : Processor) (sched : list nat) (tree : Node)
    (file : VFile) (w : World) : Node :=
  (runIncludes proc sched tree file w).2.1.

Definition remarkInclude (proc : Processor) (sched : list nat) (tree : Node)
    (file : VFile) (w : World) : Promise Node * World :=
  let '(r, (tree', w')) := runIncludes proc sched tree file w in
  (match r with inl e => Rejected e | inr _ => Fulfilled tree' end, w').

(** ** The processor *)

(** [createProcessor]: counts the call, then throws or makes a new
    instance. *)
Definition createProcessor (options : ProcessorOptions) : M World Processor :=
  λ w,
    let w' := {| cache := cache w; constructed := S (constructed w);
                 reads := reads w; dependencies := dependencies w |} in
    match createProcessor_check options with
    | Some e => (inl e, w')
    | None => (inr {| pid := constructed w; settings := options |}, w')
    end.

(** The transforms of the processor, in the order of [remarkPlugins]. *)
Fixpoint runTransforms (proc : Processor) (sched : list nat) (plugins : list Plugin)
    (tree : Node) (file : VFile) (w : World) : Promise Node * World :=
  match plugins with
  | [] => (Fulfilled tree, w)
  | plugin :: plugins' =>
      let '(r, w') :=
        match plugin with
        | remarkIncludePlugin => remarkInclude proc sched tree file w
        | userPlugin id =>
            (match userTransform id tree file with
             | inl e => Rejected e
             | inr tree' => Fulfilled tree'
             end, w)
        end in
      match r with
      | Rejected e => (Rejected e, w')
      | Fulfilled tree' => runTransforms proc sched plugins' tree' file w'
      end
  end.

(** [new VFile(...)] refuses an empty path. *)
Definition emptyPath (file : VFile) : bool :=
  match vpath file with
  | Some p => String.eqb p ""
  | None => false
  end.

(** [processor.process]: make the file, parse, transform, compile. Every
    failure of these steps rejects the promise. The plugins are attached on
    the way in; the embedding has the transforms of the plugins and not
    their attachers, which it takes to return. *)
Definition process (proc : Processor) (sched : list nat) (file : VFile)
    (w : World) : Promise VFile * World :=
  if emptyPath file then (Rejected (HostError "`path` cannot be empty"), w)
  else
    match parse (settings proc) (vvalue file) with
    | inl e => (Rejected e, w)
    | inr parsed =>
        let tree := ownTransforms (settings proc) parsed in
        match runTransforms proc sched (p_remarkPlugins (settings proc)) tree file w with
        | (Rejected e, w') => (Rejected e, w')
        | (Fulfilled tree', w') =>
            (match compile (settings proc) tree' file with
             | inl e => Rejected e
             | inr code =>
                 Fulfilled {| vvalue := code; vpath := vpath file; vdata := vdata file |}
             end, w')
        end
    end.

(** ** [buildMDX] *)

(** A property written before [...rest] in an object literal: an own
    property of [rest] overwrites it, also one whose value is [undefined]. *)
Definition spreadOver {A} (before : A) (own : option (option A)) : option A :=
  match own with
  | Some v => v
  | None => Some before
  end.

(** The argument of [createProcessor] (lines 110-120): the defaults, then
    [...rest], then the plugin list and the format. *)
Definition processorOptions (fmt : Format) (options : MDXOptions) : ProcessorOptions :=
  {| p_outputFormat := spreadOver program (outputFormat options);
     p_development :=
       spreadOver (bool_decide (NODE_ENV = Some "development")) (development options);
     p_collection := collection options;
     p__compiler := _compiler options;
     p_otherOptions := otherOptions options;
     p_remarkPlugins := remarkIncludePlugin :: default [] (remarkPlugins options);
     p_format := fmt |}.

(** Lines 105-126: the entry of the cache the call goes on with. *)
Definition cachedProcessor (group hash : string) (options : MDXOptions)
  : M World CacheEntry :=
  let fmt := resolveFormat options in
  let key := cacheKey group (formatString fmt) in
  cached ← gets (λ w, cache w !! key);
  let rebuild : M World CacheEntry :=
    proc ← createProcessor (processorOptions fmt options);
    let entry := {| processor := proc; configHash := hash |} in
    modify (cache_set key entry);;
    mret entry in
  match cached with
  | None => rebuild
  | Some c => if negb (String.eqb (configHash c) hash) then rebuild else mret c
  end.

Definition fileOf (source : string) (options : MDXOptions) : VFile :=
  {| vvalue := source;
     vpath := filePath options;
     vdata := {| dataEntries := default [] (data options);
                 dataFrontmatter := frontmatter options;
                 data_compiler := _compiler options |} |}.

(** [sched] is the order in which the reads of this call complete. *)
Definition buildMDX (group hash source : string) (options : MDXOptions)
    (sched : list nat) : M World (Promise VFile) :=
  cached ← cachedProcessor group hash options;
  ((λ w, let '(r, w') := process (processor cached) sched (fileOf source options) w in
         (inr r, w')) : M World (Promise VFile)).

(** A sequence of calls. *)
Record Call := {
  callGroup : string;
  callHash : string;
  callSource : string;
  callOptions : MDXOptions;
  callSchedule : list nat;
}.

Definition callKey (c : Call) : string :=
  cacheKey (callGroup c) (formatString (resolveFormat (callOptions c))).

Definition runCall (c : Call) (w : World) : World :=
  (buildMDX (callGroup c) (callHash c) (callSource c) (callOptions c)
            (callSchedule c) w).2.

Definition runCalls (cs : list Call) (w : World) : World :=
  foldl (λ w c, runCall c w) w cs.
End Include.

(** ** A concrete host and sample documents *)

Module Sample.
Definition text (v : string) : Node :=
  mkNode "text" None None (Some v) None None.
Definition paragraph (cs : list Node) : Node :=
  mkNode "paragraph" None None None (Some cs) None.
Definition jsx (tag : string) (cs : list Node) : Node :=
  mkNode "mdxJsxFlowElement" (Some (Some tag)) (Some []) None (Some cs) None.
Definition root (cs : list Node) : Node :=
  mkNode "root" None None None (Some cs) None.

(** [<include>b.mdx</include>] *)
Definition includeOf (specifier : string) : Node := jsx "include" [text specifier].

Definition docPlain : Node := root [paragraph [text "Hi"]].
Definition docOne : Node := root [includeOf "b.mdx"].
Definition docTwo : Node := root [includeOf "b.mdx"; paragraph [text "and"]; includeOf "c.mdx"].
Definition docTwice : Node := root [includeOf "b.mdx"; includeOf "b.mdx"].
Definition docMissing : Node := root [includeOf "b.mdx"; includeOf "nowhere.mdx"].
(** [<div><include>b.mdx</include></div>] *)
Definition docInDiv : Node := root [jsx "div" [includeOf "b.mdx"]].
(** [<include><include>b.mdx</include></include>] *)
Definition docInInclude : Node := root [jsx "include" [includeOf "b.mdx"]].
(** [<include></include>] *)
Definition docEmptyInclude : Node := root [jsx "include" []].

Fixpoint beforeLastSlash (s : string) : option string :=
  match s with
  | EmptyString => None
  | String c s' =>
      match beforeLastSlash s' with
      | Some d => Some (String c d)
      | None => if Ascii.eqb c "/" then Some EmptyString else None
      end
  end.

Definition posixDirname (s : string) : string :=
  match beforeLastSlash s with
  | Some EmptyString => "/"
  | Some d => d
  | None => "."
  end.

Definition posixResolve (dir specifier : string) : string :=
  if String.prefix "/" specifier then specifier else dir +:+ "/" +:+ specifier.

Definition sampleParse (source : string) : Error + Node :=
  if String.eqb source "one" then inr docOne
  else if String.eqb source "two" then inr docTwo
  else if String.eqb source "twice" then inr docTwice
  else if String.eqb source "missing" then inr docMissing
  else if String.eqb source "in-div" then inr docInDiv
  else if String.eqb source "in-include" then inr docInInclude
  else if String.eqb source "empty-include" then inr docEmptyInclude
  else if String.eqb source "<" then inl (HostError "Unexpected end of file")
  else inr (root [paragraph [text source]]).

Definition sampleFiles (path : string) : Error + string :=
  if String.eqb path "/docs/b.mdx" then inr "---
title: B
---
Hello"
  else if String.eqb path "/docs/c.mdx" then inr "World"
  else if String.eqb path "/docs/bad.mdx" then inr "<"
  else inl (HostError "ENOENT").

Definition sampleMatter (content : string) : Error + string :=
  if String.prefix "---" content
  then inr (strDrop 17 content)
  else inr content.

(** [createProcessor] of this host refuses the removed option
    [filepath]. *)
Definition sampleCheck (o : ProcessorOptions) : option Error :=
  if existsb (λ kv, String.eqb kv.1 "filepath") (p_otherOptions o)
  then Some (HostError "Unexpected removed option `filepath`")
  else None.

Definition host : Host :=
  {| NODE_ENV := Some "production";
     createProcessor_check := sampleCheck;
     parse := λ _ source, sampleParse source;
     ownTransforms := λ _ tree, tree;
     userTransform := λ _ tree _, inr tree;
     compile := λ _ _ _, inr "export default function MDXContent() {}";
     readFile := sampleFiles;
     matter := sampleMatter;
     dirname := posixDirname;
     resolve := posixResolve |}.

Definition noOptions : MDXOptions :=
  {| collection := None; filePath := None; frontmatter := None; data := None;
     _compiler := None; format := None; outputFormat := None;
     development := None; remarkPlugins := None; otherOptions := [] |}.

Definition withPath (p : string) (o : MDXOptions) : MDXOptions :=
  {| collection := collection o; filePath := Some p; frontmatter := frontmatter o;
     data := data o; _compiler := _compiler o; format := format o;
     outputFormat := outputFormat o; development := development o;
     remarkPlugins := remarkPlugins o; otherOptions := otherOptions o |}.

Definition withRecorder (r : nat) (o : MDXOptions) : MDXOptions :=
  {| collection := collection o; filePath := filePath o; frontmatter := frontmatter o;
     data := data o; _compiler := Some {| recorder := r |}; format := format o;
     outputFormat := outputFormat o; development := development o;
     remarkPlugins := remarkPlugins o; otherOptions := otherOptions o |}.

Definition withOther (k v : string) (o : MDXOptions) : MDXOptions :=
  {| collection := collection o; filePath := filePath o; frontmatter := frontmatter o;
     data := data o; _compiler := _compiler o; format := format o;
     outputFormat := outputFormat o; development := development o;
     remarkPlugins := remarkPlugins o; otherOptions := (k, v) :: otherOptions o |}.

Definition atDocs : MDXOptions := withPath "/docs/a.mdx" noOptions.

Definition fileAt (p : option string) (r : option CompilerOptions) : VFile :=
  {| vvalue := ""; vpath := p;
     vdata := {| dataEntries := []; dataFrontmatter := None; data_compiler := r |} |}.

Definition sampleProcessor : Processor :=
  {| pid := 0; settings := processorOptions (H := host) mdx atDocs |}.

Definition mkCall (g h src : string) (o : MDXOptions) : Call :=
  {| callGroup := g; callHash := h; callSource := src; callOptions := o;
     callSchedule := [] |}.
End Sample.


(** ** Notions the properties are stated with *)

(** The rule for [format] (specification, 4.3), for a non-empty path. *)
Inductive FormatRule (o : MDXOptions) : Format → Prop :=
| format_explicit f :
    format o = Some f → FormatRule o f
| format_mdx_suffix p stem :
    format o = None → filePath o = Some p → p ≠ "" → p = stem +:+ ".mdx" →
    FormatRule o mdx
| format_other_suffix p :
    format o = None → filePath o = Some p → p ≠ "" →
    (∀ stem, p ≠ stem +:+ ".mdx") →
    FormatRule o md
| format_default :
    format o = None → filePath o = None ∨ filePath o = Some "" →
    FormatRule o mdx.

(** The rule as the specification words it: any supplied path decides. *)
Inductive FormatRuleAsSpecified (o : MDXOptions) : Format → Prop :=
| spec_explicit f :
    format o = Some f → FormatRuleAsSpecified o f
| spec_mdx_suffix p stem :
    format o = None → filePath o = Some p → p = stem +:+ ".mdx" →
    FormatRuleAsSpecified o mdx
| spec_other_suffix p :
    format o = None → filePath o = Some p → (∀ stem, p ≠ stem +:+ ".mdx") →
    FormatRuleAsSpecified o md
| spec_default :
    format o = None → filePath o = None → FormatRuleAsSpecified o mdx.

Section Notions.
Context `{Host}.

(** The entry under [key] is missing or carries another fingerprint. *)
Definition stale (key hash : string) (w : World) : bool :=
  match cache w !! key with
  | None => true
  | Some c => negb (String.eqb (configHash c) hash)
  end.

(** The store after a call of [createProcessor]. *)
Definition counted (w : World) : World :=
  {| cache := cache w; constructed := S (constructed w);
     reads := reads w; dependencies := dependencies w |}.

(** What holds of every store the calls can reach: the processors of the
    cache were made by earlier calls of [createProcessor], with
    [remarkInclude] first in their plugins, and no two keys share one. *)
Record Reachable (w : World) : Prop := {
  reach_fresh : ∀ k e, cache w !! k = Some e → pid (processor e) < constructed w;
  reach_plugins : ∀ k e, cache w !! k = Some e →
    ∃ rest, p_remarkPlugins (settings (processor e)) = remarkIncludePlugin :: rest;
  reach_apart : ∀ k1 k2 e1 e2, cache w !! k1 = Some e1 → cache w !! k2 = Some e2 →
    pid (processor e1) = pid (processor e2) → k1 = k2;
}.

(** The processor a call works with, when [createProcessor] does not
    throw. *)
Definition processorUsed (c : Call) (w : World) : option Processor :=
  match cachedProcessor (callGroup c) (callHash c) (callOptions c) w with
  | (inr entry, _) => Some (processor entry)
  | (inl _, _) => None
  end.

(** The calls of a sequence during which [createProcessor] ran. *)
Fixpoint constructions (cs : list Call) (w : World) : list Call :=
  match cs with
  | [] => []
  | c :: cs' =>
      let w' := runCall c w in
      (if bool_decide (constructed w' = constructed w) then [] else [c])
      ++ constructions cs' w'
  end.

Definition sameKeyAndHash (g : string) (f : Format) (h : string) (c : Call) : bool :=
  bool_decide (callGroup c = g ∧ resolveFormat (callOptions c) = f ∧ callHash c = h).

(** An include directive, and one the visitor queues. *)
Definition isIncludeDirective (n : Node) : bool := isJsxFlow n && isIncludeName n.

Definition firstChildIsText (n : Node) : bool :=
  match children n with
  | Some (c :: _) => isType "text" c
  | _ => false
  end.

Definition resolvable (n : Node) : bool := isIncludeDirective n && firstChildIsText n.

(** The specifier of a queued directive. *)
Definition specifierOf (n : Node) : option string :=
  match children n with
  | Some (c :: _) => value c
  | _ => None
  end.

(** The walk goes on below [n]: the visitor is not run, or returns
    nothing. *)
Definition descends (n : Node) : bool :=
  if isJsxFlow n then isIncludeName n && negb (firstChildIsText n) else true.

(** The node at [p], when the walk gets there. *)
Fixpoint reached (p : list nat) (n : Node) : option Node :=
  match p with
  | [] => Some n
  | i :: p' =>
      if descends n then
        match children n with
        | Some cs => match cs !! i with Some c => reached p' c | None => None end
        | None => None
        end
      else None
  end.

(** The node at [p], when no node above it is an [mdxJsxFlowElement]. *)
Fixpoint outsideJsx (p : list nat) (n : Node) : option Node :=
  match p with
  | [] => Some n
  | i :: p' =>
      if isJsxFlow n then None
      else
        match children n with
        | Some cs => match cs !! i with Some c => outsideJsx p' c | None => None end
        | None => None
        end
  end.

(** Document order: a node comes before the nodes below it and before the
    later siblings of the nodes above it. *)
Fixpoint pathBefore (p q : list nat) : bool :=
  match p, q with
  | [], [] => false
  | [], _ :: _ => true
  | _ :: _, [] => false
  | i :: p', j :: q' => Nat.ltb i j || (Nat.eqb i j && pathBefore p' q')
  end.

Definition before (p q : list nat) : Prop := pathBefore p q = true.

(** The typing of mdast: a JSX element has children, a text has a value. *)
Definition nodeTyped (n : Node) : bool :=
  (if isJsxFlow n then bool_decide (is_Some (children n)) else true)
  && (if isType "text" n then bool_decide (is_Some (value n)) else true).

Fixpoint wellTyped (n : Node) : bool :=
  nodeTyped n &&
  match n with
  | mkNode _ _ _ _ (Some cs) _ => forallb wellTyped cs
  | mkNode _ _ _ _ None _ => true
  end.

(** The read, the splitter and the parser all succeed on the task. *)
Definition resolves (proc : Processor) (t : Task) : bool :=
  match resolveInclude proc t with inr _ => true | inl _ => false end.

(** The cache and the count of constructions agree. *)
Definition sameCache (w w' : World) : Prop :=
  cache w' = cache w ∧ constructed w' = constructed w.

(** No entry of the cache holds the processor numbered [n], and none made
    later will. *)
Definition discarded (n : nat) (w : World) : Prop :=
  n < constructed w ∧ ∀ k e, cache w !! k = Some e → pid (processor e) ≠ n.

(** [ts] are the tasks the walk queues below [n], which sits at [at_]. *)
Definition FoundIn (fp : string) (at_ : list nat) (n : Node) (ts : list Task) : Prop :=
  (∀ t, t ∈ ts → ∃ rel m spec,
      site t = at_ ++ rel ∧ reached rel n = Some m ∧ resolvable m = true
      ∧ specifierOf m = Some spec ∧ targetPath t = resolve (dirname fp) spec)
  ∧ (∀ rel m, reached rel n = Some m → resolvable m = true →
      ∃ t, t ∈ ts ∧ site t = at_ ++ rel)
  ∧ NoDup (site <$> ts)
  ∧ StronglySorted before (site <$> ts).

(** The same, for the children [cs] of a node at [at_], from the index [i]. *)
Definition FoundAmong (fp : string) (at_ : list nat) (i : nat) (cs : list Node)
    (ts : list Task) : Prop :=
  (∀ t, t ∈ ts → ∃ j c rel m spec,
      cs !! j = Some c ∧ site t = at_ ++ (i + j) :: rel ∧ reached rel c = Some m
      ∧ resolvable m = true ∧ specifierOf m = Some spec
      ∧ targetPath t = resolve (dirname fp) spec)
  ∧ (∀ j c rel m, cs !! j = Some c → reached rel c = Some m → resolvable m = true →
      ∃ t, t ∈ ts ∧ site t = at_ ++ (i + j) :: rel)
  ∧ NoDup (site <$> ts)
  ∧ StronglySorted before (site <$> ts).

(** What a visit that succeeds leaves: the queue and the reads grow by the
    same tasks. *)
Definition Walked (r : (Error + ()) * (list Task * World)) (q : list Task) (w : World)
    (ts : list Task) : Prop :=
  r.1 = inr () ∧ r.2.1 = q ++ ts
  ∧ reads r.2.2 = reads w ++ (targetPath <$> ts)
  ∧ dependencies r.2.2 = dependencies w.

(** What one callback does to the tree. *)
Definition applyResolved (proc : Processor) (tree : Node) (t : Task) : Node :=
  match resolveInclude proc t with
  | inr parsed => update_at (site t) (λ node, Object_assign node parsed) tree
  | inl _ => tree
  end.

(** The calls of [addDependency] one callback makes. *)
Definition reported (proc : Processor) (file : VFile) (t : Task) : list (nat * string) :=
  match data_compiler (vdata file), resolveInclude proc t with
  | Some c, inr _ => [(recorder c, targetPath t)]
  | _, _ => []
  end.

(** The first failure of [order]. *)
Fixpoint firstFailure (proc : Processor) (order : list Task) : option Error :=
  match order with
  | [] => None
  | t :: order' =>
      match resolveInclude proc t with
      | inl e => Some e
      | inr _ => firstFailure proc order'
      end
  end.

(** The walk reaches a directive it would queue. *)
Definition hasResolvable (n : Node) : Prop :=
  ∃ rel m, reached rel n = Some m ∧ resolvable m = true.

(** The file with another recorder, or none. *)
Definition withCompiler (r : option CompilerOptions) (file : VFile) : VFile :=
  {| vvalue := vvalue file; vpath := vpath file;
     vdata := {| dataEntries := dataEntries (vdata file);
                 dataFrontmatter := dataFrontmatter (vdata file);
                 data_compiler := r |} |}.

(** No include directive where the walk looks: outside the
    [mdxJsxFlowElement]s of the tree. *)
Fixpoint includeFree (n : Node) : bool :=
  if isJsxFlow n then negb (isIncludeName n)
  else
    match n with
    | mkNode _ _ _ _ (Some cs) _ => forallb includeFree cs
    | mkNode _ _ _ _ None _ => true
    end.

(** From [w] to [w'] files were read and dependencies reported, every
    report to the recorder [c] and of a file read meanwhile. *)
Definition reportsReads (c : option CompilerOptions) (w w' : World) : Prop :=
  ∃ rd added, reads w' = reads w ++ rd ∧ dependencies w' = dependencies w ++ added
    ∧ ∀ d, d ∈ added → (∃ r, c = Some r ∧ d.1 = recorder r) ∧ d.2 ∈ rd.

(** [m] has the own properties of [n] apart from the children, and as many
    children. *)
Definition keepsOwn (n m : Node) : Prop :=
  type m = type n ∧ name m = name n ∧ attributes m = attributes n
  ∧ value m = value n ∧ position m = position n
  ∧ length <$> children m = length <$> children n.

End Notions.

(** ** Properties *)

Example sample_build :
  (buildMDX (H := Sample.host) "docs" "h1" "one" Sample.atDocs [] emptyWorld).1
  = inr (Fulfilled {| vvalue := "export default function MDXContent() {}";
                      vpath := Some "/docs/a.mdx";
                      vdata := {| dataEntries := []; dataFrontmatter := None;
                                  data_compiler := None |} |}).
Proof. vm_compute. reflexivity. Qed.

Example sample_tree :
  treeAfter (H := Sample.host) Sample.sampleProcessor [] Sample.docOne
            (Sample.fileAt (Some "/docs/a.mdx") None) emptyWorld
  = Sample.root [mkNode "root" (Some (Some "include")) (Some []) None
                        (Some [Sample.paragraph [Sample.text "Hello"]]) None].
Proof. vm_compute. reflexivity. Qed.

Section NodeInduction.
Variable P : Node → Prop.
Hypothesis step : ∀ t nm ats v cs pos,
  match cs with Some l => Forall P l | None => True end →
  P (mkNode t nm ats v cs pos).

Lemma Node_induction : ∀ n, P n.
Proof.
  fix rec 1. intros [t nm ats v [l|] pos]; apply step; [|exact I].
  induction l as [|c l IHl]; constructor; [apply rec | exact IHl].
Qed.
End NodeInduction.

(** *** Strings and keys *)

Lemma append_cons (c : ascii) (a b : string) :
  String c a +:+ b = String c (a +:+ b).
Proof. reflexivity. Qed.

Lemma length_append (a b : string) :
  String.length (a +:+ b) = String.length a + String.length b.
Proof.
  induction a as [|c a IH]; [reflexivity|].
  rewrite append_cons. simpl. now rewrite IH.
Qed.

Lemma append_assoc (a b c : string) : (a +:+ b) +:+ c = a +:+ (b +:+ c).
Proof.
  induction a as [|x a IH]; [reflexivity|].
  rewrite !append_cons. now rewrite IH.
Qed.

Lemma strDrop_append (a b : string) : strDrop (String.length a) (a +:+ b) = b.
Proof.
  induction a as [|c a IH]; [now destruct b|].
  rewrite append_cons. simpl. exact IH.
Qed.

Lemma strDrop_split (n : nat) (s : string) :
  (n ≤ String.length s)%nat → ∃ a, s = a +:+ strDrop n s.
Proof.
  revert s. induction n as [|n IH]; intros s Hn.
  - exists "". reflexivity.
  - destruct s as [|c s]; simpl in *; [lia|].
    destruct (IH s) as [a Ha]; [lia|].
    exists (String c a). rewrite append_cons. now rewrite <- Ha.
Qed.

Lemma endsWith_true (s search : string) :
  endsWith s search = true ↔ ∃ stem, s = stem +:+ search.
Proof.
  unfold endsWith. rewrite andb_true_iff, Nat.leb_le, String.eqb_eq. split.
  - intros [Hlen Hdrop].
    destruct (strDrop_split (String.length s - String.length search) s) as [a Ha]; [lia|].
    exists a. now rewrite Hdrop in Ha.
  - intros [stem ->]. rewrite length_append. split; [lia|].
    replace (String.length stem + String.length search - String.length search)
      with (String.length stem) by lia.
    apply strDrop_append.
Qed.

Lemma append_inj_length (a b s t : string) :
  String.length a = String.length b → a +:+ s = b +:+ t → a = b ∧ s = t.
Proof.
  revert b. induction a as [|x a IH]; intros [|y b] Hlen Heq; simpl in Hlen; try lia.
  - now split.
  - rewrite !append_cons in Heq. injection Heq as -> Heq.
    destruct (IH b) as [-> ->]; [lia | exact Heq | now split].
Qed.

Lemma append_inj_suffix (a b s t : string) :
  String.length s = String.length t → a +:+ s = b +:+ t → a = b ∧ s = t.
Proof.
  intros Hlen Heq. apply append_inj_length; [|exact Heq].
  apply (f_equal String.length) in Heq. rewrite !length_append in Heq. lia.
Qed.

Lemma cacheKey_inj (g1 g2 : string) (f1 f2 : Format) :
  cacheKey g1 (formatString f1) = cacheKey g2 (formatString f2) → g1 = g2 ∧ f1 = f2.
Proof.
  unfold cacheKey. destruct f1, f2; intros Heq.
  - change (g1 +:+ ":md" = g2 +:+ ":md") in Heq.
    destruct (append_inj_suffix _ _ _ _ eq_refl Heq) as [-> _]. now split.
  - change (g1 +:+ ":md" = g2 +:+ (":" +:+ "mdx")) in Heq.
    rewrite <- append_assoc in Heq.
    destruct (append_inj_suffix g1 (g2 +:+ ":") ":md" "mdx" eq_refl Heq) as [_ Hbad].
    discriminate Hbad.
  - change (g1 +:+ (":" +:+ "mdx") = g2 +:+ ":md") in Heq.
    rewrite <- append_assoc in Heq.
    destruct (append_inj_suffix (g1 +:+ ":") g2 "mdx" ":md" eq_refl Heq) as [_ Hbad].
    discriminate Hbad.
  - change (g1 +:+ ":mdx" = g2 +:+ ":mdx") in Heq.
    destruct (append_inj_suffix _ _ _ _ eq_refl Heq) as [-> _]. now split.
Qed.

(** *** The cache step *)

Section CacheStep.
Context `{Host}.

Lemma cachedProcessor_fresh (g h : string) (o : MDXOptions) (w : World) :
  stale (cacheKey g (formatString (resolveFormat o))) h w = false →
  ∃ c, cache w !! cacheKey g (formatString (resolveFormat o)) = Some c
       ∧ configHash c = h
       ∧ cachedProcessor g h o w = (inr c, w).
Proof.
  unfold stale, cachedProcessor, mbind, M_bind, bind, gets. intros Hst.
  destruct (cache w !! _) as [c|]; [|discriminate].
  exists c. apply negb_false_iff in Hst. rewrite Hst. simpl.
  apply String.eqb_eq in Hst. auto.
Qed.

Lemma cachedProcessor_stale (g h : string) (o : MDXOptions) (w : World) :
  let key := cacheKey g (formatString (resolveFormat o)) in
  let opts := processorOptions (resolveFormat o) o in
  let entry := {| processor := {| pid := constructed w; settings := opts |};
                  configHash := h |} in
  stale key h w = true →
  cachedProcessor g h o w =
    match createProcessor_check opts with
    | Some e => (inl e, counted w)
    | None => (inr entry, cache_set key entry (counted w))
    end.
Proof.
  intros key opts entry.
  unfold stale, cachedProcessor, mbind, M_bind, bind, gets, createProcessor,
    modify, mret, M_ret, ret, counted.
  fold key. fold opts. intros Hst.
  destruct (cache w !! key) as [c|]; [rewrite Hst|];
    destruct (createProcessor_check opts); reflexivity.
Qed.

End CacheStep.

(** *** What a walk and a pipeline leave alone *)

Section VisitInvariant.
Context {St : Type}.
Variable test : Node → bool.
Variable visitor : list nat → Node → M St VisitorResult.
Variable Inv : St → Prop.
Hypothesis visitor_keeps : ∀ at_ n s, Inv s → Inv (visitor at_ n s).2.

Lemma visitChildren_keeps (f : nat → Node → M St ()) (cs : list Node) :
  Forall (λ c, ∀ i s, Inv s → Inv (f i c s).2) cs →
  ∀ i s, Inv s → Inv (visitChildren f i cs s).2.
Proof.
  induction 1 as [|c cs Hc _ IH]; intros i s Hs; simpl; [exact Hs|].
  specialize (Hc i s Hs). destruct (f i c s) as [[e|[]] s1]; simpl in *; auto.
Qed.

Lemma visit_keeps (n : Node) :
  ∀ at_ s, Inv s → Inv (visit test visitor at_ n s).2.
Proof.
  induction n as [t nm ats v cs pos IH] using Node_induction.
  intros at_ s Hs. simpl.
  assert (Hv : Inv ((if test (mkNode t nm ats v cs pos)
                     then visitor at_ (mkNode t nm ats v cs pos) s
                     else (inr CONTINUE, s)).2)).
  { destruct (test _); [apply visitor_keeps|]; exact Hs. }
  destruct (if test _ then _ else _) as [[e|[|]] s1]; simpl in *; try exact Hv.
  destruct cs as [l|]; [|exact Hv].
  apply visitChildren_keeps; [|exact Hv].
  eapply Forall_impl; [exact IH|]. intros c Hc i s2. apply Hc.
Qed.
End VisitInvariant.

Section Frame.
Context `{Host}.

Lemma sameCache_refl (w : World) : sameCache w w.
Proof. now split. Qed.

Lemma sameCache_trans (w1 w2 w3 : World) :
  sameCache w1 w2 → sameCache w2 w3 → sameCache w1 w3.
Proof. intros [? ?] [? ?]. split; congruence. Qed.

Lemma includeVisitor_frame (file : VFile) (w0 : World) at_ n (s : list Task * World) :
  sameCache w0 s.2 → sameCache w0 (includeVisitor file at_ n s).2.2.
Proof.
  intros Hs. unfold includeVisitor.
  destruct (isIncludeName n); [|exact Hs].
  destruct (children n) as [cs|]; [|exact Hs].
  destruct (head cs) as [child|]; [|exact Hs].
  destruct (negb (isType "text" child)); [exact Hs|].
  destruct (path_dirname (vpath file)) as [e|dir]; [exact Hs|].
  destruct (path_resolve dir (value child)) as [e|target]; [exact Hs|].
  destruct s as [q w]. exact Hs.
Qed.

Lemma walk_frame (file : VFile) (tree : Node) (w : World) :
  sameCache w (walk file tree w).2.2.
Proof.
  unfold walk.
  apply (visit_keeps isJsxFlow (includeVisitor file) (λ s, sameCache w s.2)).
  - intros at_ n s. apply includeVisitor_frame.
  - apply sameCache_refl.
Qed.

Lemma settle_frame proc file t (st : Node * World) :
  sameCache st.2 (settle proc file t st).2.2.
Proof.
  destruct st as [tree w]. unfold settle.
  destruct (resolveInclude proc t); [apply sameCache_refl|].
  destruct (data_compiler (vdata file)); split; reflexivity.
Qed.

Lemma settleAll_frame proc file order : ∀ st,
  sameCache st.2 (settleAll proc file order st).2.2.
Proof.
  induction order as [|t order IH]; intros st; simpl; [apply sameCache_refl|].
  pose proof (settle_frame proc file t st) as H1.
  destruct (settle proc file t st) as [r st1].
  pose proof (IH st1) as H2.
  destruct (settleAll proc file order st1) as [later st2].
  simpl in *. eapply sameCache_trans; eassumption.
Qed.

Lemma runIncludes_frame proc sched tree file w :
  sameCache w (runIncludes proc sched tree file w).2.2.
Proof.
  unfold runIncludes.
  pose proof (walk_frame file tree w) as H1.
  destruct (walk file tree w) as [walked [queue w1]].
  pose proof (settleAll_frame proc file (completionOrder sched queue) (tree, w1)) as H2.
  destruct (settleAll _ _ _ _) as [failed st]. simpl in *.
  eapply sameCache_trans; eassumption.
Qed.

Lemma remarkInclude_frame proc sched tree file w :
  sameCache w (remarkInclude proc sched tree file w).2.
Proof.
  unfold remarkInclude.
  pose proof (runIncludes_frame proc sched tree file w) as H1.
  destruct (runIncludes proc sched tree file w) as [r [tree' w']]. exact H1.
Qed.

Lemma runTransforms_frame proc sched plugins : ∀ tree file w,
  sameCache w (runTransforms proc sched plugins tree file w).2.
Proof.
  induction plugins as [|plugin plugins IH]; intros tree file w; simpl;
    [apply sameCache_refl|].
  destruct plugin as [|id].
  - pose proof (remarkInclude_frame proc sched tree file w) as H1.
    destruct (remarkInclude proc sched tree file w) as [[tree'|e] w']; simpl in *;
      [|exact H1].
    eapply sameCache_trans; [exact H1 | apply IH].
  - destruct (userTransform id tree file) as [e|tree']; [apply sameCache_refl | apply IH].
Qed.

Lemma process_frame proc sched file w :
  sameCache w (process proc sched file w).2.
Proof.
  unfold process. destruct (emptyPath file); [apply sameCache_refl|].
  destruct (parse (settings proc) (vvalue file)) as [e|parsed]; [apply sameCache_refl|].
  pose proof (runTransforms_frame proc sched (p_remarkPlugins (settings proc))
                (ownTransforms (settings proc) parsed) file w) as H1.
  destruct (runTransforms _ _ _ _ _ _) as [[tree'|e] w']; exact H1.
Qed.

(** [buildMDX] is the cache step followed by the pipeline. *)
Lemma buildMDX_unfold g h src o sched w :
  buildMDX g h src o sched w =
    match cachedProcessor g h o w with
    | (inl e, w1) => (inl e, w1)
    | (inr c, w1) =>
        let '(r, w') := process (processor c) sched (fileOf src o) w1 in (inr r, w')
    end.
Proof. reflexivity. Qed.

Lemma buildMDX_frame g h src o sched w :
  sameCache (cachedProcessor g h o w).2 (buildMDX g h src o sched w).2.
Proof.
  rewrite buildMDX_unfold.
  destruct (cachedProcessor g h o w) as [[e|c] w1]; [apply sameCache_refl|].
  pose proof (process_frame (processor c) sched (fileOf src o) w1) as H1.
  destruct (process _ _ _ _) as [r w']. exact H1.
Qed.

End Frame.

(** *** The format of a call *)

Lemma resolveFormat_rule (o : MDXOptions) : FormatRule o (resolveFormat o).
Proof.
  unfold resolveFormat, truthy.
  destruct (format o) as [f|] eqn:Hf.
  - destruct (filePath o); now apply format_explicit.
  - destruct (filePath o) as [p|] eqn:Hp; [|apply format_default; auto].
    destruct (String.eqb_spec p "") as [->|Hne]; simpl.
    + apply format_default; auto.
    + destruct (endsWith p ".mdx") eqn:He.
      * apply endsWith_true in He as [stem ->].
        now apply (format_mdx_suffix o (stem +:+ ".mdx") stem).
      * apply (format_other_suffix o p); auto.
        intros stem ->. assert (endsWith (stem +:+ ".mdx") ".mdx" = true) as Ht
          by (apply endsWith_true; eauto).
        congruence.
Qed.

Lemma FormatRule_functional (o : MDXOptions) (f1 f2 : Format) :
  FormatRule o f1 → FormatRule o f2 → f1 = f2.
Proof.
  intros H1 H2. destruct H1, H2; try congruence;
    repeat match goal with D : _ ∨ _ |- _ => destruct D end;
    try congruence; simplify_eq;
    exfalso; match goal with S : ∀ stem, _ ≠ _ |- _ => now eapply S end.
Qed.

Section CacheFacts.
Context `{Host}.

(** The entry a call goes on with is the entry under its key. *)
Lemma cachedProcessor_stored g h o w c w1 :
  cachedProcessor g h o w = (inr c, w1) →
  cache w1 !! cacheKey g (formatString (resolveFormat o)) = Some c
  ∧ configHash c = h
  ∧ stale (cacheKey g (formatString (resolveFormat o))) h w1 = false.
Proof.
  intros Hc.
  destruct (stale (cacheKey g (formatString (resolveFormat o))) h w) eqn:Hst.
  - rewrite (cachedProcessor_stale g h o w Hst) in Hc.
    destruct (createProcessor_check _); [discriminate|].
    injection Hc as <- <-. unfold stale, cache_set; simpl.
    rewrite lookup_insert_eq. simpl. rewrite String.eqb_refl. auto.
  - destruct (cachedProcessor_fresh g h o w Hst) as (c' & Hl & Hh & Heq).
    rewrite Heq in Hc. injection Hc as <- <-. auto.
Qed.

(** A call touches no key but its own. *)
Lemma cachedProcessor_other g h o w k :
  k ≠ cacheKey g (formatString (resolveFormat o)) →
  cache (cachedProcessor g h o w).2 !! k = cache w !! k.
Proof.
  intros Hk.
  destruct (stale (cacheKey g (formatString (resolveFormat o))) h w) eqn:Hst.
  - rewrite (cachedProcessor_stale g h o w Hst).
    destruct (createProcessor_check _); simpl; [reflexivity|].
    now rewrite lookup_insert_ne.
  - destruct (cachedProcessor_fresh g h o w Hst) as (c' & _ & _ & ->). reflexivity.
Qed.

Lemma runCall_cache c w :
  sameCache (cachedProcessor (callGroup c) (callHash c) (callOptions c) w).2 (runCall c w).
Proof. apply buildMDX_frame. Qed.

(** An entry survives every call that has another key or its fingerprint. *)
Lemma runCall_keeps_entry (k h : string) (e : CacheEntry) (c : Call) (w : World) :
  cache w !! k = Some e → configHash e = h →
  (callKey c = k → callHash c = h) →
  cache (runCall c w) !! k = Some e.
Proof.
  intros He Hh Hc. destruct (runCall_cache c w) as [-> _].
  destruct (decide (k = callKey c)) as [->|Hne].
  - specialize (Hc eq_refl).
    assert (stale (callKey c) (callHash c) w = false) as Hst.
    { unfold stale. rewrite He, Hh, Hc. now rewrite String.eqb_refl. }
    destruct (cachedProcessor_fresh _ _ _ _ Hst) as (c' & _ & _ & ->). exact He.
  - rewrite cachedProcessor_other; auto.
Qed.

Lemma runCalls_keeps_entry (k h : string) (e : CacheEntry) (cs : list Call) :
  Forall (λ c, callKey c = k → callHash c = h) cs →
  ∀ w, cache w !! k = Some e → configHash e = h →
  cache (runCalls cs w) !! k = Some e.
Proof.
  induction 1 as [|c cs Hc _ IH]; intros w He Hh; simpl; [exact He|].
  apply IH; [|exact Hh]. now apply (runCall_keeps_entry k h).
Qed.

(** The count of constructions after the cache step. *)
Lemma cachedProcessor_count g h o w :
  constructed (cachedProcessor g h o w).2 =
    if stale (cacheKey g (formatString (resolveFormat o))) h w
    then S (constructed w) else constructed w.
Proof.
  destruct (stale _ h w) eqn:Hst.
  - rewrite (cachedProcessor_stale g h o w Hst).
    destruct (createProcessor_check _); reflexivity.
  - destruct (cachedProcessor_fresh g h o w Hst) as (c' & _ & _ & ->). reflexivity.
Qed.

End CacheFacts.

(** *** Stores that calls reach *)

Section Reach.
Context `{Host}.

Lemma Reachable_empty : Reachable emptyWorld.
Proof. split; simpl; intros *; rewrite lookup_empty; discriminate. Qed.

Lemma Reachable_sameCache (w w' : World) :
  sameCache w w' → Reachable w → Reachable w'.
Proof.
  intros [Hc Hn] [Hf Hp Ha]. split; rewrite ?Hc, ?Hn; assumption.
Qed.

Lemma Reachable_cachedProcessor g h o w :
  Reachable w → Reachable (cachedProcessor g h o w).2.
Proof.
  intros [Hf Hp Ha].
  destruct (stale (cacheKey g (formatString (resolveFormat o))) h w) eqn:Hst.
  - rewrite (cachedProcessor_stale g h o w Hst).
    destruct (createProcessor_check _) as [err|]; simpl.
    + split; simpl; eauto. intros k e He. specialize (Hf k e He). lia.
    + set (key := cacheKey g (formatString (resolveFormat o))).
      split; simpl.
      * intros k e. rewrite lookup_insert. case_decide.
        -- intros [= <-]. simpl. lia.
        -- intros He. specialize (Hf k e He). lia.
      * intros k e. rewrite lookup_insert. case_decide.
        -- intros [= <-]. simpl. eauto.
        -- apply Hp.
      * intros k1 k2 e1 e2. rewrite !lookup_insert. repeat case_decide.
        -- congruence.
        -- intros [= <-] He2 Hpid. simpl in Hpid.
           specialize (Hf k2 e2 He2). lia.
        -- intros He1 [= <-] Hpid. simpl in Hpid.
           specialize (Hf k1 e1 He1). lia.
        -- apply Ha.
  - destruct (cachedProcessor_fresh g h o w Hst) as (c' & _ & _ & ->).
    now split.
Qed.

Lemma Reachable_runCall c w : Reachable w → Reachable (runCall c w).
Proof.
  intros Hw. eapply Reachable_sameCache; [apply runCall_cache|].
  now apply Reachable_cachedProcessor.
Qed.

Lemma Reachable_runCalls cs : ∀ w, Reachable w → Reachable (runCalls cs w).
Proof.
  induction cs as [|c cs IH]; intros w Hw; simpl; [exact Hw|].
  apply IH. now apply Reachable_runCall.
Qed.

Lemma discarded_cachedProcessor n g h o w :
  discarded n w → discarded n (cachedProcessor g h o w).2.
Proof.
  intros [Hn Hd].
  destruct (stale (cacheKey g (formatString (resolveFormat o))) h w) eqn:Hst.
  - rewrite (cachedProcessor_stale g h o w Hst).
    destruct (createProcessor_check _) as [err|]; simpl.
    + split; simpl; [lia | exact Hd].
    + split; simpl; [lia|]. intros k e. rewrite lookup_insert. case_decide.
      * intros [= <-]. simpl. lia.
      * apply Hd.
  - destruct (cachedProcessor_fresh g h o w Hst) as (c' & _ & _ & ->). now split.
Qed.

Lemma discarded_runCall n c w : discarded n w → discarded n (runCall c w).
Proof.
  intros Hd. destruct (runCall_cache c w) as [Hc Hk].
  apply (discarded_cachedProcessor n (callGroup c) (callHash c) (callOptions c)) in Hd.
  destruct Hd as [Hn Hd]. split; [rewrite Hk | rewrite Hc]; assumption.
Qed.

Lemma discarded_runCalls n cs : ∀ w, discarded n w → discarded n (runCalls cs w).
Proof.
  induction cs as [|c cs IH]; intros w Hw; simpl; [exact Hw|].
  apply IH. now apply discarded_runCall.
Qed.

Lemma discarded_not_used n c w p :
  discarded n w → processorUsed c w = Some p → pid p ≠ n.
Proof.
  intros [Hn Hd]. unfold processorUsed.
  destruct (stale (callKey c) (callHash c) w) eqn:Hst.
  - unfold callKey in Hst. rewrite (cachedProcessor_stale _ _ _ _ Hst).
    destruct (createProcessor_check _) as [err|]; [discriminate|].
    intros [= <-]. simpl. lia.
  - unfold callKey in Hst.
    destruct (cachedProcessor_fresh _ _ _ _ Hst) as (c' & Hl & _ & ->).
    intros [= <-]. now apply (Hd _ _ Hl).
Qed.

End Reach.

(** *** The compiler cache *)

Section CacheClaims.
Context `{Host}.

(** C1. Two calls of [buildMDX] with the same group, the same resolved
    format and the same fingerprint, no call between them using that group
    and format with another fingerprint. The first call, when the entry of
    its key is missing or carries another fingerprint, calls
    [createProcessor] once with the options derived from its own, gets the
    instance numbered by the count of constructions so far and stores it
    under its key; when the entry carries its fingerprint the first call
    goes on with that entry. The second call works with the very entry,
    hence the very processor, of the first, and [createProcessor] is not
    called again. *)
Theorem build_reuses_compiler
    (g h src1 src2 : string) (o1 o2 : MDXOptions) (s1 s2 : list nat)
    (between : list Call) (w : World) :
  let key := cacheKey g (formatString (resolveFormat o1)) in
  (stale key h w = true →
   createProcessor_check (processorOptions (resolveFormat o1) o1) = None) →
  resolveFormat o2 = resolveFormat o1 →
  Forall (λ call, callGroup call = g →
                  resolveFormat (callOptions call) = resolveFormat o1 →
                  callHash call = h) between →
  ∃ c w1,
    cachedProcessor g h o1 w = (inr c, w1)
    ∧ configHash c = h
    ∧ (if stale key h w
       then processor c = {| pid := constructed w;
                             settings := processorOptions (resolveFormat o1) o1 |}
            ∧ w1 = cache_set key c (counted w)
            ∧ constructed w1 = S (constructed w)
       else cache w !! key = Some c ∧ w1 = w)
    ∧ cache w1 !! key = Some c
    ∧ buildMDX g h src1 o1 s1 w
      = (let '(r, w') := process (processor c) s1 (fileOf src1 o1) w1 in (inr r, w'))
    ∧ let w2 := runCalls between (buildMDX g h src1 o1 s1 w).2 in
      cachedProcessor g h o2 w2 = (inr c, w2)
      ∧ buildMDX g h src2 o2 s2 w2
        = (let '(r, w3) := process (processor c) s2 (fileOf src2 o2) w2 in (inr r, w3))
      ∧ constructed (buildMDX g h src2 o2 s2 w2).2 = constructed w2.
Proof.
  intros key Hok Hfmt Hbetween.
  assert (Hfirst : ∃ c w1, cachedProcessor g h o1 w = (inr c, w1)
            ∧ (if stale key h w
               then processor c = {| pid := constructed w;
                                     settings := processorOptions (resolveFormat o1) o1 |}
                    ∧ w1 = cache_set key c (counted w)
                    ∧ constructed w1 = S (constructed w)
               else cache w !! key = Some c ∧ w1 = w)).
  { destruct (stale key h w) eqn:Hst.
    - pose proof (cachedProcessor_stale g h o1 w Hst) as Hstep. simpl in Hstep.
      rewrite (Hok eq_refl) in Hstep. eexists _, _. split; [exact Hstep|]. auto.
    - destruct (cachedProcessor_fresh g h o1 w Hst) as (c & Hl & _ & Heq).
      exists c, w. auto. }
  destruct Hfirst as (c & w1 & Hfirst & Hhow). exists c, w1.
  destruct (cachedProcessor_stored _ _ _ _ _ _ Hfirst) as (Hstored & Hhash & _).
  split; [exact Hfirst|]. split; [exact Hhash|]. split; [exact Hhow|].
  split; [exact Hstored|].
  split; [rewrite buildMDX_unfold, Hfirst; reflexivity|].
  intros w2.
  assert (Hkept : cache w2 !! key = Some c).
  { apply (runCalls_keeps_entry _ h); [| |exact Hhash].
    - eapply Forall_impl; [exact Hbetween|]. intros call Hcall Hkey.
      apply cacheKey_inj in Hkey as [Hg Hf]. auto.
    - destruct (buildMDX_frame g h src1 o1 s1 w) as [-> _].
      now rewrite Hfirst. }
  assert (Hst : stale (cacheKey g (formatString (resolveFormat o2))) h w2 = false).
  { unfold stale. rewrite Hfmt. fold key. rewrite Hkept, Hhash.
    now rewrite String.eqb_refl. }
  destruct (cachedProcessor_fresh g h o2 w2 Hst) as (c' & Hl & _ & Hsecond).
  rewrite Hfmt in Hl. fold key in Hl. rewrite Hkept in Hl. injection Hl as <-.
  split; [exact Hsecond|]. split.
  - rewrite buildMDX_unfold, Hsecond. reflexivity.
  - destruct (buildMDX_frame g h src2 o2 s2 w2) as [_ ->]. now rewrite Hsecond.
Qed.

(** C2, as amended. A call runs [createProcessor] once when the entry of
    its key is missing or carries another fingerprint, and not at all when
    the entry carries its fingerprint. When the fingerprint differs and the
    construction succeeds, the new processor replaces the old one under the
    key, and no later call works with the old one. *)
Theorem fingerprint_change_rebuilds_once
    (history later : list Call) (g h src : string) (o : MDXOptions)
    (sched : list nat) (call : Call) :
  let w := runCalls history emptyWorld in
  let key := cacheKey g (formatString (resolveFormat o)) in
  let w' := (buildMDX g h src o sched w).2 in
  constructed w' = (if stale key h w then S (constructed w) else constructed w)
  ∧ ∀ old, cache w !! key = Some old → configHash old ≠ h →
      createProcessor_check (processorOptions (resolveFormat o) o) = None →
      (∃ new, cache w' !! key = Some new ∧ configHash new = h
              ∧ pid (processor new) = constructed w
              ∧ pid (processor new) ≠ pid (processor old))
      ∧ ∀ p, processorUsed call (runCalls later w') = Some p →
             pid p ≠ pid (processor old).
Proof.
  intros w key w'.
  assert (Hw : Reachable w) by apply Reachable_runCalls, Reachable_empty.
  destruct (buildMDX_frame g h src o sched w) as [Hcache Hcount]. fold w' in Hcache, Hcount.
  split; [rewrite Hcount; apply cachedProcessor_count|].
  intros old Hold Hne Hok.
  assert (Hst : stale key h w = true).
  { unfold stale. rewrite Hold. apply negb_true_iff, String.eqb_neq. exact Hne. }
  pose proof (cachedProcessor_stale g h o w Hst) as Hstep. simpl in Hstep.
  rewrite Hok in Hstep. rewrite Hstep in Hcache, Hcount. simpl in Hcache, Hcount.
  pose proof (reach_fresh w Hw _ _ Hold) as Hlt.
  split.
  - eexists. rewrite Hcache. fold key. rewrite lookup_insert_eq.
    split; [reflexivity|]. simpl. repeat split. lia.
  - intros p Hused. eapply discarded_not_used; [|exact Hused].
    apply discarded_runCalls. split; [rewrite Hcount; lia|].
    intros k e. rewrite Hcache. fold key. rewrite lookup_insert. case_decide.
    + intros [= <-]. simpl. lia.
    + intros He Hpid. pose proof (reach_apart w Hw _ _ _ _ He Hold Hpid). congruence.
Qed.

(** C3. When [createProcessor] throws during a call, the call throws that
    error and the cache is what it was before the call: nothing is stored
    under the key. *)
Theorem failed_construction_leaves_cache
    (g h src : string) (o : MDXOptions) (sched : list nat) (w : World) (e : Error) :
  stale (cacheKey g (formatString (resolveFormat o))) h w = true →
  createProcessor_check (processorOptions (resolveFormat o) o) = Some e →
  (buildMDX g h src o sched w).1 = inl e
  ∧ cache (buildMDX g h src o sched w).2 = cache w.
Proof.
  intros Hst Hthrow. rewrite buildMDX_unfold.
  pose proof (cachedProcessor_stale g h o w Hst) as Hstep. simpl in Hstep.
  rewrite Hthrow in Hstep. rewrite Hstep. split; reflexivity.
Qed.

(** C9, as amended. The format of a call, which names its cache key and is
    handed to [createProcessor], is the format option when one is given;
    otherwise, for a non-empty path, mdx when the path ends in ".mdx" and md
    when it does not; otherwise, without a path or with an empty one, mdx. *)
Theorem format_resolution (g h : string) (o : MDXOptions) (w : World) :
  (∀ f, FormatRule o f ↔ resolveFormat o = f)
  ∧ match cachedProcessor g h o w with
    | (inr entry, w') =>
        cache w' !! cacheKey g (formatString (resolveFormat o)) = Some entry
        ∧ (stale (cacheKey g (formatString (resolveFormat o))) h w = true →
           p_format (settings (processor entry)) = resolveFormat o)
    | (inl _, w') => cache w' = cache w
    end.
Proof.
  split.
  - intros f. split.
    + intros Hf. eapply FormatRule_functional; [apply resolveFormat_rule | exact Hf].
    + intros <-. apply resolveFormat_rule.
  - destruct (cachedProcessor g h o w) as [[e|entry] w'] eqn:Hc.
    + destruct (stale (cacheKey g (formatString (resolveFormat o))) h w) eqn:Hst.
      * rewrite (cachedProcessor_stale g h o w Hst) in Hc.
        destruct (createProcessor_check _); [|discriminate].
        now injection Hc as _ <-.
      * destruct (cachedProcessor_fresh g h o w Hst) as (c' & _ & _ & Heq). congruence.
    + split; [eapply cachedProcessor_stored; exact Hc|].
      intros Hst. rewrite (cachedProcessor_stale g h o w Hst) in Hc.
      destruct (createProcessor_check _); [discriminate|].
      now injection Hc as <- _.
Qed.

End CacheClaims.

(** Formats of sample calls. *)
Example format_samples :
  resolveFormat (Sample.withPath "/docs/a.mdx" Sample.noOptions) = mdx
  ∧ resolveFormat (Sample.withPath "/docs/a.md" Sample.noOptions) = md
  ∧ resolveFormat (Sample.withPath "/docs/a.MDX" Sample.noOptions) = md
  ∧ resolveFormat Sample.noOptions = mdx.
Proof. repeat split; reflexivity. Qed.

(** C9, as the specification words it, fails for the empty path: a path is
    supplied, it does not end in ".mdx", and the format is mdx all the
    same. *)
Lemma empty_path_defaults_to_mdx :
  FormatRuleAsSpecified (Sample.withPath "" Sample.noOptions) md
  ∧ resolveFormat (Sample.withPath "" Sample.noOptions) = mdx
  ∧ cacheKey "docs" (formatString (resolveFormat (Sample.withPath "" Sample.noOptions)))
    = "docs:mdx".
Proof.
  split; [|split; reflexivity].
  apply (spec_other_suffix _ ""); [reflexivity | reflexivity |].
  intros stem Heq. apply (f_equal String.length) in Heq.
  rewrite length_append in Heq. simpl in Heq. lia.
Qed.

Lemma build_reuses_compiler_witness :
  let between := [Sample.mkCall "blog" "h2" "plain" Sample.noOptions;
                  Sample.mkCall "docs" "h1" "two" Sample.atDocs] in
  let key := cacheKey "docs" (formatString (resolveFormat Sample.atDocs)) in
  ∃ c w1,
    cachedProcessor (H := Sample.host) "docs" "h1" Sample.atDocs emptyWorld = (inr c, w1)
    ∧ configHash c = "h1"
    ∧ (if stale key "h1" emptyWorld
       then processor c
            = {| pid := constructed emptyWorld;
                 settings := processorOptions (H := Sample.host)
                               (resolveFormat Sample.atDocs) Sample.atDocs |}
            ∧ w1 = cache_set key c (counted emptyWorld)
            ∧ constructed w1 = S (constructed emptyWorld)
       else cache emptyWorld !! key = Some c ∧ w1 = emptyWorld)
    ∧ cache w1 !! key = Some c
    ∧ buildMDX (H := Sample.host) "docs" "h1" "one" Sample.atDocs [] emptyWorld
      = (let '(r, w') := process (H := Sample.host) (processor c) []
                           (fileOf "one" Sample.atDocs) w1 in (inr r, w'))
    ∧ let w2 := runCalls (H := Sample.host) between
                  (buildMDX (H := Sample.host) "docs" "h1" "one" Sample.atDocs []
                     emptyWorld).2 in
      cachedProcessor (H := Sample.host) "docs" "h1" Sample.atDocs w2 = (inr c, w2)
      ∧ buildMDX (H := Sample.host) "docs" "h1" "twice" Sample.atDocs [1] w2
        = (let '(r, w3) := process (H := Sample.host) (processor c) [1]
                             (fileOf "twice" Sample.atDocs) w2 in (inr r, w3))
      ∧ constructed
          (buildMDX (H := Sample.host) "docs" "h1" "twice" Sample.atDocs [1] w2).2
        = constructed w2.
Proof.
  intros between key.
  apply (build_reuses_compiler (H := Sample.host) "docs" "h1" "one" "twice"
           Sample.atDocs Sample.atDocs [] [1] between emptyWorld).
  - reflexivity.
  - reflexivity.
  - repeat constructor.
    + intros Hg. discriminate Hg.
Defined.

(** C2, as the specification words it, fails: with the fingerprints A, B, A
    on one key, [createProcessor] runs twice for the fingerprint A. *)
Lemma returning_fingerprint_is_rebuilt :
  let cA := Sample.mkCall "docs" "A" "plain" Sample.noOptions in
  let cB := Sample.mkCall "docs" "B" "plain" Sample.noOptions in
  ¬ (length (List.filter (sameKeyAndHash "docs" mdx "A")
               (constructions (H := Sample.host) [cA; cB; cA] emptyWorld)) ≤ 1)%nat.
Proof. vm_compute. lia. Qed.

Lemma fingerprint_change_rebuilds_once_witness :
  let cA := Sample.mkCall "docs" "A" "plain" Sample.noOptions in
  let w := runCalls (H := Sample.host) [cA] emptyWorld in
  let w' := (buildMDX (H := Sample.host) "docs" "B" "plain" Sample.noOptions [] w).2 in
  constructed w = 1 ∧ constructed w' = 2
  ∧ ∀ p, processorUsed (H := Sample.host) cA (runCalls (H := Sample.host) [cA; cA] w') = Some p →
         pid p ≠ 0.
Proof.
  intros cA w w'.
  destruct (fingerprint_change_rebuilds_once (H := Sample.host) [cA] [cA; cA]
              "docs" "B" "plain" Sample.noOptions [] cA) as [Hcount Hold].
  split; [reflexivity|]. split; [exact Hcount|].
  refine (proj2 (Hold {| processor := {| pid := 0;
                           settings := processorOptions (H := Sample.host) mdx Sample.noOptions |};
                         configHash := "A" |} _ _ _)).
  - reflexivity.
  - discriminate.
  - reflexivity.
Defined.

Lemma failed_construction_leaves_cache_witness :
  let o := Sample.withOther "filepath" "a.mdx" Sample.noOptions in
  (buildMDX (H := Sample.host) "docs" "h1" "plain" o [] emptyWorld).1
    = inl (HostError "Unexpected removed option `filepath`")
  ∧ cache (buildMDX (H := Sample.host) "docs" "h1" "plain" o [] emptyWorld).2
    = cache emptyWorld.
Proof.
  intros o.
  apply (failed_construction_leaves_cache (H := Sample.host) "docs" "h1" "plain" o []
           emptyWorld); reflexivity.
Defined.

(** *** Places in the tree *)

Lemma node_at_update_same (p : list nat) (f : Node → Node) (n m : Node) :
  node_at p n = Some m → node_at p (update_at p f n) = Some (f m).
Proof.
  revert n. induction p as [|i p IH]; intros n; simpl.
  - now intros [= ->].
  - destruct (children n) as [cs|] eqn:Hcs; [|discriminate].
    destruct (cs !! i) as [c|] eqn:Hc; [|discriminate].
    intros Hm. simpl. rewrite list_lookup_alter_eq, Hc. simpl. now apply IH.
Qed.

(** An update does not show at a place that is neither above nor below. *)
Lemma node_at_update_apart (p q : list nat) (f : Node → Node) (n : Node) :
  ¬ p `prefix_of` q → ¬ q `prefix_of` p →
  node_at q (update_at p f n) = node_at q n.
Proof.
  revert q n. induction p as [|i p IH]; intros q n Hpq Hqp.
  - destruct Hpq. apply prefix_nil.
  - destruct q as [|j q]; [destruct Hqp; apply prefix_nil|].
    simpl. destruct (children n) as [cs|] eqn:Hcs; simpl; [|now rewrite Hcs].
    destruct (decide (i = j)) as [->|Hij].
    + rewrite list_lookup_alter_eq. destruct (cs !! j) as [c|]; simpl; [|reflexivity].
      apply IH; intros Hpre; [apply Hpq | apply Hqp]; now apply prefix_cons.
    + now rewrite list_lookup_alter_ne.
Qed.

Section Reaching.
Context `{Host}.

Lemma resolvable_stops (m : Node) : resolvable m = true → descends m = false.
Proof.
  unfold resolvable, isIncludeDirective, descends.
  destruct (isJsxFlow m), (isIncludeName m), (firstChildIsText m); simpl; congruence.
Qed.

Lemma reached_node_at (p : list nat) (n m : Node) :
  reached p n = Some m → node_at p n = Some m.
Proof.
  revert n. induction p as [|i p IH]; intros n; simpl; [auto|].
  destruct (descends n); [|discriminate].
  destruct (children n) as [cs|]; [|discriminate].
  destruct (cs !! i) as [c|]; [apply IH | discriminate].
Qed.

Lemma outsideJsx_reached (p : list nat) (n m : Node) :
  outsideJsx p n = Some m → reached p n = Some m.
Proof.
  revert n. induction p as [|i p IH]; intros n; simpl; [auto|].
  unfold descends. destruct (isJsxFlow n); [discriminate|].
  destruct (children n) as [cs|]; [|discriminate].
  destruct (cs !! i) as [c|]; [apply IH | discriminate].
Qed.

(** The walk passes through every node above a node it reaches. *)
Lemma reached_through (p q : list nat) (n m : Node) :
  reached (p ++ q) n = Some m →
  ∃ m1, reached p n = Some m1 ∧ reached q m1 = Some m.
Proof.
  revert n. induction p as [|i p IH]; intros n; simpl; [eauto|].
  destruct (descends n); [|discriminate].
  destruct (children n) as [cs|]; [|discriminate].
  destruct (cs !! i) as [c|]; [apply IH | discriminate].
Qed.

Lemma reached_below_resolvable (p q : list nat) (n m1 m2 : Node) :
  reached p n = Some m1 → resolvable m1 = true →
  reached (p ++ q) n = Some m2 → q = [].
Proof.
  intros H1 Hr H2. apply reached_through in H2 as (m & Hm & Hq).
  rewrite H1 in Hm. injection Hm as <-.
  destruct q as [|i q]; [reflexivity|]. simpl in Hq.
  now rewrite (resolvable_stops _ Hr) in Hq.
Qed.

(** The walk goes on below a node that is not a JSX flow element, and below
    an include directive that has no text first child. *)
Lemma descends_spec (a : Node) :
  descends a = true ↔
  isJsxFlow a = false ∨ (isIncludeName a = true ∧ firstChildIsText a = false).
Proof.
  unfold descends. destruct (isJsxFlow a).
  - rewrite andb_true_iff, negb_true_iff. split; [auto|]. now intros [|].
  - split; auto.
Qed.

(** The walk gets to a place when it goes on below every node above it. *)
Lemma reached_spec (p : list nat) : ∀ n m,
  reached p n = Some m ↔
  node_at p n = Some m
  ∧ ∀ q a, q `prefix_of` p → q ≠ p → node_at q n = Some a → descends a = true.
Proof.
  induction p as [|i p IH]; intros n m.
  - simpl. split; [|now intros [Hm _]].
    intros Hm. split; [exact Hm|]. intros q a Hq Hne.
    apply prefix_nil_inv in Hq. contradiction.
  - split.
    + simpl. destruct (descends n) eqn:Hd; [|discriminate].
      destruct (children n) as [cs|] eqn:Hcs; [|discriminate].
      destruct (cs !! i) as [c|] eqn:Hc; [|discriminate].
      intros Hr. apply IH in Hr as [Hat Hall]. split; [exact Hat|].
      intros q a Hq Hne Ha. destruct q as [|j q].
      * simpl in Ha. injection Ha as <-. exact Hd.
      * pose proof (prefix_cons_inv_1 _ _ _ _ Hq) as ->.
        apply prefix_cons_inv_2 in Hq. simpl in Ha. rewrite Hcs, Hc in Ha.
        apply (Hall q a Hq); [congruence | exact Ha].
    + intros [Hat Hall]. simpl in Hat |- *.
      rewrite (Hall [] n (prefix_nil _) (λ Heq, nil_cons Heq) eq_refl).
      destruct (children n) as [cs|] eqn:Hcs; [|discriminate].
      destruct (cs !! i) as [c|] eqn:Hc; [|discriminate].
      apply IH. split; [exact Hat|]. intros q a Hq Hne Ha.
      apply (Hall (i :: q) a); [now apply prefix_cons | congruence |].
      simpl. now rewrite Hcs, Hc.
Qed.

End Reaching.

(** *** The walk of a document that has a path *)

Lemma pathBefore_app (at_ p q : list nat) :
  pathBefore (at_ ++ p) (at_ ++ q) = pathBefore p q.
Proof.
  induction at_ as [|i at_ IH]; simpl; [reflexivity|].
  now rewrite Nat.ltb_irrefl, Nat.eqb_refl, IH.
Qed.

Section Walk.
Context `{Host}.

Lemma FoundIn_nothing fp at_ n :
  (∀ rel m, reached rel n = Some m → resolvable m = false) → FoundIn fp at_ n [].
Proof.
  intros Hn. split; [|split; [|split]].
  - intros t Ht. inversion Ht.
  - intros rel m Hm Hr. rewrite (Hn _ _ Hm) in Hr. discriminate.
  - constructor.
  - constructor.
Qed.

Lemma FoundAmong_parent fp at_ n cs ts :
  descends n = true → children n = Some cs →
  FoundAmong fp at_ 0 cs ts → FoundIn fp at_ n ts.
Proof.
  intros Hd Hcs (Hsound & Hcomplete & Hnodup & Hsorted).
  split; [|split; [|split]]; [| |exact Hnodup|exact Hsorted].
  - intros t Ht. destruct (Hsound t Ht) as (j & c & rel & m & spec & Hc & Hs & Hm & Hrest).
    exists (j :: rel), m, spec. split; [exact Hs|]. split; [|exact Hrest].
    simpl. now rewrite Hd, Hcs, Hc.
  - intros rel m Hm Hr. destruct rel as [|j rel]; simpl in Hm.
    + injection Hm as <-. apply resolvable_stops in Hr. congruence.
    + rewrite Hd, Hcs in Hm. destruct (cs !! j) as [c|] eqn:Hc; [|discriminate].
      apply (Hcomplete j c rel m Hc Hm Hr).
Qed.

Lemma visitChildren_found fp file at_ cs :
  Forall (λ c, wellTyped c = true → ∀ at' q w, ∃ ts,
            Walked (visit isJsxFlow (includeVisitor file) at' c (q, w)) q w ts
            ∧ FoundIn fp at' c ts) cs →
  forallb wellTyped cs = true →
  ∀ i q w, ∃ ts,
    Walked (visitChildren (λ i c, visit isJsxFlow (includeVisitor file) (at_ ++ [i]) c)
              i cs (q, w)) q w ts
    ∧ FoundAmong fp at_ i cs ts.
Proof.
  induction 1 as [|c cs Hc _ IH]; intros Hwt i q w.
  - exists []. split.
    + unfold Walked. simpl. rewrite !app_nil_r. auto.
    + split; [|split; [|split]]; [intros t Ht; inversion Ht | | constructor | constructor].
      intros j c rel m Hj. rewrite lookup_nil in Hj. discriminate.
  - simpl in Hwt. apply andb_true_iff in Hwt as [Hwc Hwcs].
    destruct (Hc Hwc (at_ ++ [i]) q w) as (ts1 & (Hr1 & Hq1 & Hreads1 & Hdeps1) & Hf1).
    simpl. destruct (visit isJsxFlow (includeVisitor file) (at_ ++ [i]) c (q, w))
      as [[e|[]] [q1 w1]]; simpl in *; [discriminate|]. subst q1.
    destruct (IH Hwcs (S i) (q ++ ts1) w1) as (ts2 & (Hr2 & Hq2 & Hreads2 & Hdeps2) & Hf2).
    exists (ts1 ++ ts2). split.
    + unfold Walked. rewrite Hr2, Hq2, Hreads2, Hdeps2, Hreads1, Hdeps1.
      rewrite fmap_app, !app_assoc. auto.
    + destruct Hf1 as (Hs1 & Hc1 & Hn1 & Ho1), Hf2 as (Hs2 & Hc2 & Hn2 & Ho2).
      split; [|split; [|split]].
      * intros t Ht. apply elem_of_app in Ht as [Ht|Ht].
        -- destruct (Hs1 t Ht) as (rel & m & spec & Hsite & Hrest).
           exists 0, c, rel, m, spec. split; [reflexivity|].
           split; [|exact Hrest]. rewrite Hsite, <- app_assoc, Nat.add_0_r. reflexivity.
        -- destruct (Hs2 t Ht) as (j & c' & rel & m & spec & Hj & Hsite & Hrest).
           exists (S j), c', rel, m, spec. split; [exact Hj|].
           split; [|exact Hrest]. rewrite Hsite. do 2 f_equal. lia.
      * intros j c' rel m Hj Hm Hr. destruct j as [|j]; simpl in Hj.
        -- injection Hj as <-. destruct (Hc1 rel m Hm Hr) as (t & Ht & Hsite).
           exists t. split; [apply elem_of_app; auto|].
           rewrite Hsite, <- app_assoc, Nat.add_0_r. reflexivity.
        -- destruct (Hc2 j c' rel m Hj Hm Hr) as (t & Ht & Hsite).
           exists t. split; [apply elem_of_app; auto|].
           rewrite Hsite. do 2 f_equal. lia.
      * rewrite fmap_app. apply NoDup_app. split; [exact Hn1|]. split; [|exact Hn2].
        intros s Hs Hs'.
        apply list_elem_of_fmap in Hs as (t1 & -> & Ht1).
        apply list_elem_of_fmap in Hs' as (t2 & Heq & Ht2).
        destruct (Hs1 t1 Ht1) as (rel1 & _ & _ & Hsite1 & _).
        destruct (Hs2 t2 Ht2) as (j & _ & rel2 & _ & _ & _ & Hsite2 & _).
        rewrite Hsite1, Hsite2, <- app_assoc in Heq.
        apply app_inv_head in Heq. simpl in Heq. injection Heq as Heq _. lia.
      * rewrite fmap_app. apply StronglySorted_app_2; [|exact Ho1|exact Ho2].
        intros s1 s2 Hs Hs'.
        apply list_elem_of_fmap in Hs as (t1 & -> & Ht1).
        apply list_elem_of_fmap in Hs' as (t2 & -> & Ht2).
        destruct (Hs1 t1 Ht1) as (rel1 & _ & _ & Hsite1 & _).
        destruct (Hs2 t2 Ht2) as (j & _ & rel2 & _ & _ & _ & Hsite2 & _).
        unfold before. rewrite Hsite1, Hsite2, <- app_assoc, pathBefore_app. simpl.
        apply orb_true_iff. left. apply Nat.ltb_lt. lia.
Qed.

End Walk.

Lemma visit_unfold {St : Type} (test : Node → bool)
    (visitor : list nat → Node → M St VisitorResult) (at_ : list nat) (n : Node) (s : St) :
  visit test visitor at_ n s =
    match (if test n then visitor at_ n s else (inr CONTINUE, s)) with
    | (inl e, s') => (inl e, s')
    | (inr SKIP, s') => (inr (), s')
    | (inr CONTINUE, s') =>
        match children n with
        | Some cs => visitChildren (λ i c, visit test visitor (at_ ++ [i]) c) 0 cs s'
        | None => (inr (), s')
        end
    end.
Proof. destruct n as [t nm ats v [cs|] pos]; reflexivity. Qed.

Section WalkWithPath.
Context `{Host}.

Lemma wellTyped_unfold (n : Node) :
  wellTyped n = nodeTyped n
                && match children n with Some cs => forallb wellTyped cs | None => true end.
Proof. destruct n as [t nm ats v [cs|] pos]; reflexivity. Qed.

Lemma visit_found (fp : string) (file : VFile) (n : Node) :
  vpath file = Some fp → wellTyped n = true →
  ∀ at_ q w, ∃ ts,
    Walked (visit isJsxFlow (includeVisitor file) at_ n (q, w)) q w ts
    ∧ FoundIn fp at_ n ts.
Proof.
  intros Hfp. induction n as [t nm ats v cs pos IH] using Node_induction.
  set (n := mkNode t nm ats v cs pos) in *.
  intros Hwt at_ q w. rewrite wellTyped_unfold in Hwt.
  apply andb_true_iff in Hwt as [Hnode Hkids].
  assert (Hbelow : descends n = true →
    ∃ ts, Walked (match children n with
                  | Some cs => visitChildren
                      (λ i c, visit isJsxFlow (includeVisitor file) (at_ ++ [i]) c) 0 cs (q, w)
                  | None => (inr (), (q, w))
                  end) q w ts ∧ FoundIn fp at_ n ts).
  { intros Hd. change (children n) with cs in *. destruct cs as [l|].
    - destruct (visitChildren_found fp file at_ l IH Hkids 0 q w) as (ts & Hw & Hf).
      exists ts. split; [exact Hw|]. now apply (FoundAmong_parent fp at_ n l).
    - exists []. split; [unfold Walked; simpl; rewrite !app_nil_r; auto|].
      apply FoundIn_nothing. intros [|i rel] m; simpl.
      + intros [= <-]. destruct (resolvable n) eqn:Hr; [|reflexivity].
        apply resolvable_stops in Hr. congruence.
      + rewrite Hd. discriminate. }
  assert (Hstop : descends n = false → resolvable n = false → FoundIn fp at_ n []).
  { intros Hd Hr. apply FoundIn_nothing. intros [|i rel] m; simpl.
    - now intros [= <-].
    - rewrite Hd. discriminate. }
  rewrite visit_unfold. unfold descends, resolvable, isIncludeDirective in *.
  destruct (isJsxFlow n) eqn:Hjsx; [|apply Hbelow; reflexivity].
  unfold includeVisitor. unfold nodeTyped in Hnode. rewrite Hjsx in Hnode.
  destruct (isIncludeName n) eqn:Hinc; simpl in *.
  2:{ exists []. split; [unfold Walked; simpl; rewrite !app_nil_r; auto|].
      now apply Hstop. }
  unfold firstChildIsText, specifierOf in *. change (children n) with cs in *.
  destruct cs as [l|]; [|apply andb_true_iff in Hnode as [Hnode _];
                          apply bool_decide_eq_true in Hnode as [? ?]; discriminate].
  destruct l as [|child l]; simpl; [apply Hbelow; reflexivity|].
  destruct (isType "text" child) eqn:Htext; simpl; [|apply Hbelow; reflexivity].
  simpl in Hkids. apply andb_true_iff in Hkids as [Hchild _].
  rewrite wellTyped_unfold in Hchild. apply andb_true_iff in Hchild as [Hchild _].
  unfold nodeTyped in Hchild. rewrite Htext in Hchild.
  apply andb_true_iff in Hchild as [_ Hval].
  apply bool_decide_eq_true in Hval as [spec Hval].
  rewrite Hfp, Hval. simpl.
  exists [{| site := at_; targetPath := resolve (dirname fp) spec |}].
  split; [unfold Walked; simpl; auto|].
  split; [|split; [|split]]; [| | |repeat constructor].
  - intros t' Ht. apply list_elem_of_singleton in Ht as ->.
    exists [], n, spec. simpl. rewrite app_nil_r.
    unfold resolvable, isIncludeDirective, firstChildIsText, specifierOf. simpl.
    rewrite Hjsx, Hinc, Htext. auto.
  - intros [|i rel] m; simpl.
    + intros _ _. eexists. split; [apply list_elem_of_singleton; reflexivity|].
      simpl. now rewrite app_nil_r.
    + unfold descends, firstChildIsText. simpl. rewrite Hjsx, Hinc, Htext. discriminate.
  - repeat constructor. intros Hin. inversion Hin.
Qed.

End WalkWithPath.

(** *** [Promise.all] over the queue *)

Lemma NoDup_fmap_eq {A B : Type} (f : A → B) (l : list A) (x y : A) :
  NoDup (f <$> l) → x ∈ l → y ∈ l → f x = f y → x = y.
Proof.
  induction l as [|a l IH]; intros Hnd Hx Hy Heq; [inversion Hx|].
  rewrite fmap_cons in Hnd. apply NoDup_cons in Hnd as [Hnotin Hnd].
  apply elem_of_cons in Hx as [->|Hx]; apply elem_of_cons in Hy as [->|Hy]; auto.
  - destruct Hnotin. rewrite Heq. now apply list_elem_of_fmap_2.
  - destruct Hnotin. rewrite <- Heq. now apply list_elem_of_fmap_2.
Qed.

Section Settling.
Context `{Host}.

Lemma complete_Permutation (n : nat) : ∀ sched pending,
  length pending = n → complete n sched pending ≡ₚ pending.
Proof.
  induction n as [|n IH]; intros sched pending Hlen; simpl.
  - destruct pending; [reflexivity | discriminate].
  - assert (Hk : hd 0 sched mod length pending < length pending)
      by (apply Nat.mod_upper_bound; lia).
    destruct (lookup_lt_is_Some_2 pending _ Hk) as [t Ht]. rewrite Ht.
    etrans; [|symmetry; apply (delete_Permutation pending _ t Ht)].
    constructor. apply IH. rewrite length_delete; [lia | eauto].
Qed.

Lemma completionOrder_Permutation (sched : list nat) (queue : list Task) :
  completionOrder sched queue ≡ₚ queue.
Proof. now apply complete_Permutation. Qed.

Lemma settleAll_effect proc file order : ∀ tree w,
  settleAll proc file order (tree, w)
  = (firstFailure proc order,
     (foldl (applyResolved proc) tree order,
      {| cache := cache w; constructed := constructed w; reads := reads w;
         dependencies := dependencies w ++ mjoin (reported proc file <$> order) |})).
Proof.
  induction order as [|t order IH]; intros tree w; simpl.
  - rewrite app_nil_r. now destruct w.
  - unfold settle, applyResolved, reported at 1.
    destruct (resolveInclude proc t) as [e|parsed]; rewrite IH; simpl.
    + destruct (data_compiler (vdata file)); reflexivity.
    + destruct (data_compiler (vdata file)); simpl; [|reflexivity].
      now rewrite <- app_assoc.
Qed.


Lemma firstFailure_exists proc order t :
  t ∈ order → resolves proc t = false → ∃ e, firstFailure proc order = Some e.
Proof.
  unfold resolves. induction order as [|t' order IH]; intros Hin Hr; [inversion Hin|].
  simpl. destruct (resolveInclude proc t') as [e|parsed] eqn:Hr'; [eauto|].
  apply elem_of_cons in Hin as [->|Hin]; [rewrite Hr' in Hr; discriminate | auto].
Qed.

Lemma firstFailure_None proc order :
  Forall (λ t, resolves proc t = true) order → firstFailure proc order = None.
Proof.
  unfold resolves. induction 1 as [|t order Ht _ IH]; simpl; [reflexivity|].
  destruct (resolveInclude proc t); [discriminate | exact IH].
Qed.

(** The tree at a place no callback writes above or below. *)
Lemma foldl_applyResolved_apart proc p order : ∀ tree,
  Forall (λ t, ¬ site t `prefix_of` p ∧ ¬ p `prefix_of` site t) order →
  node_at p (foldl (applyResolved proc) tree order) = node_at p tree.
Proof.
  induction order as [|t order IH]; intros tree Hall; simpl; [reflexivity|].
  apply Forall_cons in Hall as [[H1 H2] Hall]. rewrite IH by exact Hall.
  unfold applyResolved. destruct (resolveInclude proc t); [reflexivity|].
  now apply node_at_update_apart.
Qed.

(** The tree at the place of a task that resolves. *)
Lemma foldl_applyResolved_at proc t parsed order : ∀ tree n,
  NoDup order → t ∈ order →
  (∀ t', t' ∈ order → t' ≠ t →
         ¬ site t' `prefix_of` site t ∧ ¬ site t `prefix_of` site t') →
  resolveInclude proc t = inr parsed →
  node_at (site t) tree = Some n →
  node_at (site t) (foldl (applyResolved proc) tree order) = Some (Object_assign n parsed).
Proof.
  induction order as [|t0 order IH]; intros tree n Hnd Hin Hapart Hr Hn; [inversion Hin|].
  apply NoDup_cons in Hnd as [Hnotin Hnd]. simpl.
  destruct (decide (t0 = t)) as [->|Hne].
  - rewrite foldl_applyResolved_apart.
    + unfold applyResolved. rewrite Hr.
      apply (node_at_update_same (site t) (λ node, Object_assign node parsed) tree n Hn).
    + apply Forall_forall. intros t' Ht'. apply Hapart; [now right|].
      intros ->. contradiction.
  - apply elem_of_cons in Hin as [->|Hin]; [congruence|].
    apply IH; auto.
    + intros t' Ht'. apply Hapart. now right.
    + destruct (Hapart t0 (list_elem_of_here _ _) Hne) as [H1 H2].
      unfold applyResolved. destruct (resolveInclude proc t0); [exact Hn|].
      rewrite node_at_update_apart; auto.
Qed.

End Settling.

(** *** The walk of a document without a path *)

Section WalkWithoutPath.
Context `{Host}.

Lemma visitChildren_without_path (f : nat → Node → M (list Task * World) ()) cs :
  Forall (λ c, ∀ i s, ∃ r, f i c s = (r, s) ∧ (hasResolvable c → ∃ e, r = inl e)) cs →
  ∀ i s, ∃ r, visitChildren f i cs s = (r, s)
              ∧ ((∃ j c, cs !! j = Some c ∧ hasResolvable c) → ∃ e, r = inl e).
Proof.
  induction 1 as [|c cs Hc _ IH]; intros i s; simpl.
  - exists (inr ()). split; [reflexivity|]. intros (j & c & Hj & _).
    rewrite lookup_nil in Hj. discriminate.
  - destruct (Hc i s) as (r1 & -> & Hthrow1). destruct r1 as [e|[]].
    + exists (inl e). split; [reflexivity | eauto].
    + destruct (IH (S i) s) as (r2 & -> & Hthrow2). exists r2.
      split; [reflexivity|]. intros ([|j] & c' & Hj & Hex); simpl in Hj.
      * injection Hj as <-. destruct (Hthrow1 Hex) as [e He]. discriminate.
      * eauto.
Qed.

Lemma visit_without_path (file : VFile) (n : Node) :
  vpath file = None →
  ∀ at_ s, ∃ r, visit isJsxFlow (includeVisitor file) at_ n s = (r, s)
                ∧ (hasResolvable n → ∃ e, r = inl e).
Proof.
  intros Hnone. induction n as [t nm ats v cs pos IH] using Node_induction.
  set (n := mkNode t nm ats v cs pos) in *. intros at_ s.
  assert (Hbelow : descends n = true →
    ∃ r, match children n with
         | Some cs => visitChildren
             (λ i c, visit isJsxFlow (includeVisitor file) (at_ ++ [i]) c) 0 cs s
         | None => (inr (), s)
         end = (r, s) ∧ (hasResolvable n → ∃ e, r = inl e)).
  { intros Hd. change (children n) with cs. destruct cs as [l|].
    - destruct (visitChildren_without_path
                  (λ i c, visit isJsxFlow (includeVisitor file) (at_ ++ [i]) c) l) with
        (i := 0) (s := s) as (r & Hr & Hthrow).
      { eapply Forall_impl; [exact IH|]. intros c Hc i s'. apply Hc. }
      exists r. split; [exact Hr|]. intros ([|j rel] & m & Hm & Hres); simpl in Hm.
      + injection Hm as <-. apply resolvable_stops in Hres. congruence.
      + rewrite Hd in Hm. change (children n) with (Some l) in Hm.
        destruct (l !! j) as [c|] eqn:Hj; [|discriminate].
        apply Hthrow. exists j, c. split; [exact Hj|]. now exists rel, m.
    - exists (inr ()). split; [reflexivity|]. intros ([|j rel] & m & Hm & Hres); simpl in Hm.
      + injection Hm as <-. apply resolvable_stops in Hres. congruence.
      + rewrite Hd in Hm. discriminate. }
  assert (Hstop : descends n = false → resolvable n = false →
                  hasResolvable n → ∃ e : Error, inr () = inl e).
  { intros Hd Hr ([|j rel] & m & Hm & Hres); simpl in Hm.
    - injection Hm as <-. congruence.
    - rewrite Hd in Hm. discriminate. }
  rewrite visit_unfold. unfold descends, resolvable, isIncludeDirective in *.
  destruct (isJsxFlow n) eqn:Hjsx; [|apply Hbelow; reflexivity].
  unfold includeVisitor.
  destruct (isIncludeName n) eqn:Hinc; simpl in *.
  2:{ exists (inr ()). split; [reflexivity|]. now apply Hstop. }
  unfold firstChildIsText in *. change (children n) with cs in *.
  destruct cs as [l|]; [|exists (inl (TypeError
      "Cannot read properties of undefined (reading 'at')")); split; [reflexivity | eauto]].
  destruct l as [|child l]; simpl; [apply Hbelow; reflexivity|].
  destruct (isType "text" child) eqn:Htext; simpl; [|apply Hbelow; reflexivity].
  rewrite Hnone. simpl. eexists. split; [reflexivity | eauto].
Qed.

End WalkWithoutPath.

(** *** The recorder and the walk *)

Section VisitExt.
Context {St : Type}.
Variable test : Node → bool.
Variables v1 v2 : list nat → Node → M St VisitorResult.
Hypothesis same : ∀ at_ n s, v1 at_ n s = v2 at_ n s.

Lemma visitChildren_ext (f1 f2 : nat → Node → M St ()) (cs : list Node) :
  Forall (λ c, ∀ i s, f1 i c s = f2 i c s) cs →
  ∀ i s, visitChildren f1 i cs s = visitChildren f2 i cs s.
Proof.
  induction 1 as [|c cs Hc _ IH]; intros i s; simpl; [reflexivity|].
  rewrite Hc. destruct (f2 i c s) as [[e|[]] s']; [reflexivity | apply IH].
Qed.

Lemma visit_ext (n : Node) : ∀ at_ s, visit test v1 at_ n s = visit test v2 at_ n s.
Proof.
  induction n as [t nm ats v cs pos IH] using Node_induction. intros at_ s.
  rewrite !visit_unfold, same.
  destruct (if test _ then _ else _) as [[e|[|]] s']; try reflexivity.
  simpl. destruct cs as [l|]; [|reflexivity].
  apply visitChildren_ext. eapply Forall_impl; [exact IH|]. intros c Hc i s2. apply Hc.
Qed.
End VisitExt.

Section IncludeFacts.
Context `{Host}.

Lemma walk_same_path (file1 file2 : VFile) (tree : Node) (w : World) :
  vpath file1 = vpath file2 → walk file1 tree w = walk file2 tree w.
Proof.
  intros Hp. unfold walk. apply visit_ext. intros at_ n s.
  unfold includeVisitor. now rewrite Hp.
Qed.

Lemma walk_dependencies (file : VFile) (tree : Node) (w : World) :
  dependencies (walk file tree w).2.2 = dependencies w.
Proof.
  unfold walk.
  apply (visit_keeps isJsxFlow (includeVisitor file)
           (λ s, dependencies s.2 = dependencies w)); [|reflexivity].
  intros at_ n [q w0] Hs. unfold includeVisitor.
  destruct (isIncludeName n); [|exact Hs].
  destruct (children n) as [cs|]; [|exact Hs].
  destruct (head cs) as [child|]; [|exact Hs].
  destruct (negb (isType "text" child)); [exact Hs|].
  destruct (path_dirname (vpath file)) as [e|dir]; [exact Hs|].
  destruct (path_resolve dir (value child)) as [e|target]; exact Hs.
Qed.

Lemma walk_found (fp : string) (file : VFile) (tree : Node) (w : World) :
  vpath file = Some fp → wellTyped tree = true →
  Walked (walk file tree w) [] w (located file tree w)
  ∧ FoundIn fp [] tree (located file tree w).
Proof.
  intros Hfp Hwt. unfold located.
  destruct (visit_found fp file tree Hfp Hwt [] [] w) as (ts & Hw & Hf).
  fold (walk file tree w) in Hw.
  assert ((walk file tree w).2.1 = ts) as -> by apply Hw. auto.
Qed.

Lemma runIncludes_effect proc sched tree file w :
  let order := completionOrder sched (located file tree w) in
  let w1 := (walk file tree w).2.2 in
  runIncludes proc sched tree file w =
    (match (walk file tree w).1, firstFailure proc order with
     | inl e, _ => inl e
     | inr _, Some e => inl e
     | inr _, None => inr ()
     end,
     (foldl (applyResolved proc) tree order,
      {| cache := cache w1; constructed := constructed w1; reads := reads w1;
         dependencies := dependencies w1 ++ mjoin (reported proc file <$> order) |})).
Proof.
  unfold runIncludes, located.
  destruct (walk file tree w) as [walked [queue w1]]. simpl.
  now rewrite settleAll_effect.
Qed.

Lemma reported_join proc file order :
  mjoin (reported proc file <$> order) =
    match data_compiler (vdata file) with
    | Some c => (λ t, (recorder c, targetPath t))
                  <$> filter (λ t, resolves proc t = true) order
    | None => []
    end.
Proof.
  destruct (data_compiler (vdata file)) as [c|] eqn:Hc.
  - induction order as [|t order IH]; [reflexivity|].
    change (mjoin (reported proc file <$> t :: order))
      with (reported proc file t ++ mjoin (reported proc file <$> order)).
    rewrite IH, filter_cons. unfold reported, resolves. rewrite Hc.
    destruct (resolveInclude proc t); reflexivity.
  - induction order as [|t order IH]; [reflexivity|].
    change (mjoin (reported proc file <$> t :: order))
      with (reported proc file t ++ mjoin (reported proc file <$> order)).
    rewrite IH. unfold reported. now rewrite Hc.
Qed.

Lemma cachedProcessor_reads g h o w :
  reads (cachedProcessor g h o w).2 = reads w
  ∧ dependencies (cachedProcessor g h o w).2 = dependencies w.
Proof.
  destruct (stale (cacheKey g (formatString (resolveFormat o))) h w) eqn:Hst.
  - rewrite (cachedProcessor_stale g h o w Hst).
    destruct (createProcessor_check _); split; reflexivity.
  - destruct (cachedProcessor_fresh g h o w Hst) as (c' & _ & _ & ->). now split.
Qed.


(** A queued task sits on an include directive with a text first child and
    reads the path its specifier resolves to. *)
Lemma located_sound (fp : string) (file : VFile) (tree : Node) (w : World) (t : Task) :
  vpath file = Some fp → wellTyped tree = true → t ∈ located file tree w →
  ∃ m spec, reached (site t) tree = Some m ∧ node_at (site t) tree = Some m
            ∧ resolvable m = true ∧ specifierOf m = Some spec
            ∧ targetPath t = resolve (dirname fp) spec.
Proof.
  intros Hfp Hwt Ht.
  destruct (walk_found fp file tree w Hfp Hwt) as [_ (Hsound & _)].
  destruct (Hsound t Ht) as (rel & m & spec & Hsite & Hm & Hrest).
  simpl in Hsite. subst rel. exists m, spec.
  split; [exact Hm|]. split; [now apply reached_node_at | exact Hrest].
Qed.

(** No queued task sits below another. *)
Lemma located_apart (fp : string) (file : VFile) (tree : Node) (w : World) (t1 t2 : Task) :
  vpath file = Some fp → wellTyped tree = true →
  t1 ∈ located file tree w → t2 ∈ located file tree w →
  site t1 `prefix_of` site t2 → t1 = t2.
Proof.
  intros Hfp Hwt Ht1 Ht2 [k Hk].
  destruct (located_sound fp file tree w t1 Hfp Hwt Ht1) as (m1 & _ & Hm1 & _ & Hres1 & _).
  destruct (located_sound fp file tree w t2 Hfp Hwt Ht2) as (m2 & _ & Hm2 & _).
  rewrite Hk in Hm2.
  pose proof (reached_below_resolvable (site t1) k tree m1 m2 Hm1 Hres1 Hm2) as ->.
  rewrite app_nil_r in Hk.
  destruct (walk_found fp file tree w Hfp Hwt) as [_ (_ & _ & Hnodup & _)].
  apply (NoDup_fmap_eq site (located file tree w)); auto.
Qed.

(** A place that is neither above nor below a queued directive keeps its
    node. *)
Lemma treeAfter_apart proc sched tree file w (p : list nat) :
  (∀ t, t ∈ located file tree w → ¬ site t `prefix_of` p ∧ ¬ p `prefix_of` site t) →
  node_at p (treeAfter proc sched tree file w) = node_at p tree.
Proof.
  intros Hapart. unfold treeAfter. rewrite runIncludes_effect. simpl.
  apply foldl_applyResolved_apart, Forall_forall. intros t Ht. apply Hapart.
  now rewrite <- (completionOrder_Permutation sched (located file tree w)).
Qed.

(** A node the walk reaches and does not queue is kept as it is, unless a
    directive below it is queued. *)
Lemma unqueued_node_kept fp proc sched tree file w (p : list nat) (n : Node) :
  vpath file = Some fp → wellTyped tree = true →
  reached p tree = Some n → resolvable n = false →
  (∀ t, t ∈ located file tree w → ¬ p `prefix_of` site t) →
  node_at p (treeAfter proc sched tree file w) = Some n.
Proof.
  intros Hfp Hwt Hn Hres Hbelow.
  rewrite treeAfter_apart; [now apply reached_node_at|].
  intros t Ht. split; [|now apply Hbelow].
  intros [k Hk].
  destruct (located_sound fp file tree w t Hfp Hwt Ht) as (m & _ & Hm & _ & Hres' & _).
  rewrite Hk in Hn.
  pose proof (reached_below_resolvable (site t) k tree m n Hm Hres' Hn) as ->.
  rewrite app_nil_r in Hn. congruence.
Qed.

End IncludeFacts.

(** *** The include resolver *)

Section IncludeClaims.
Context `{Host}.

(** C4, as amended. The walk of a well-typed tree of a document that has a
    path ends without an error. It queues, once each and in document order,
    exactly the include directives with a text first child that have above
    them only nodes below which the walk goes on: nodes that are not JSX
    flow elements, and include directives without a text first child. So it
    queues every such directive that has no JSX flow element above it, and
    it queues nothing below a directive it has queued. *)
Theorem walk_locates_includes (fp : string) (file : VFile) (tree : Node) (w : World) :
  vpath file = Some fp → wellTyped tree = true →
  let queue := located file tree w in
  (walk file tree w).1 = inr ()
  ∧ (∀ p, p ∈ site <$> queue ↔
          ∃ m, node_at p tree = Some m ∧ resolvable m = true
               ∧ ∀ q a, q `prefix_of` p → q ≠ p → node_at q tree = Some a →
                   isJsxFlow a = false
                   ∨ (isIncludeName a = true ∧ firstChildIsText a = false))
  ∧ (∀ p m, outsideJsx p tree = Some m → resolvable m = true → p ∈ site <$> queue)
  ∧ (∀ t, t ∈ queue → ∃ m spec,
        node_at (site t) tree = Some m ∧ resolvable m = true
        ∧ specifierOf m = Some spec ∧ targetPath t = resolve (dirname fp) spec)
  ∧ (∀ t1 t2, t1 ∈ queue → t2 ∈ queue → site t1 `prefix_of` site t2 → t1 = t2)
  ∧ NoDup (site <$> queue)
  ∧ StronglySorted before (site <$> queue).
Proof.
  intros Hfp Hwt queue.
  destruct (walk_found fp file tree w Hfp Hwt)
    as [(Hr & _) (Hsound & Hcomplete & Hnodup & Hsorted)].
  fold queue in Hsound, Hcomplete, Hnodup, Hsorted.
  split; [exact Hr|].
  split; [|split; [|split; [|split; [|split; [exact Hnodup | exact Hsorted]]]]].
  - intros p. split.
    + intros Hp. apply list_elem_of_fmap in Hp as (t & -> & Ht).
      destruct (Hsound t Ht) as (rel & m & spec & Hsite & Hm & Hres & _).
      simpl in Hsite. rewrite Hsite. apply reached_spec in Hm as [Hat Hall].
      exists m. split; [exact Hat|]. split; [exact Hres|].
      intros q a Hq Hne Ha. apply descends_spec. now apply (Hall q a).
    + intros (m & Hat & Hres & Hall).
      assert (Hm : reached p tree = Some m).
      { apply reached_spec. split; [exact Hat|].
        intros q a Hq Hne Ha. apply descends_spec. now apply (Hall q a). }
      destruct (Hcomplete p m Hm Hres) as (t & Ht & Hsite).
      apply list_elem_of_fmap. exists t. split; [now rewrite Hsite | exact Ht].
  - intros p m Hp Hres. apply outsideJsx_reached in Hp.
    destruct (Hcomplete p m Hp Hres) as (t & Ht & Hsite).
    apply list_elem_of_fmap. exists t. split; [now rewrite Hsite | exact Ht].
  - intros t Ht.
    destruct (located_sound fp file tree w t Hfp Hwt Ht) as (m & spec & _ & Hrest).
    now exists m, spec.
  - intros t1 t2. now apply (located_apart fp file tree w).
Qed.

(** C5, as amended. When the resolution of a queued directive succeeds, the
    node at its place becomes the directive with every property of the
    parsed root written over it: the type is the type of the root, a
    property the root has replaces the directive's, and a property the root
    lacks, such as the name of the directive, stays. The place of the node
    among the children of its parent does not change. *)
Theorem resolved_include_takes_parsed_fields
    (fp : string) (proc : Processor) (sched : list nat) (file : VFile)
    (tree : Node) (w : World) (t : Task) (parsed : Node) :
  vpath file = Some fp → wellTyped tree = true →
  t ∈ located file tree w → resolveInclude proc t = inr parsed →
  ∃ n m, node_at (site t) tree = Some n ∧ isIncludeDirective n = true
    ∧ node_at (site t) (treeAfter proc sched tree file w) = Some m
    ∧ m = Object_assign n parsed
    ∧ type m = type parsed
    ∧ name m = assignField (name n) (name parsed)
    ∧ attributes m = assignField (attributes n) (attributes parsed)
    ∧ value m = assignField (value n) (value parsed)
    ∧ children m = assignField (children n) (children parsed)
    ∧ position m = assignField (position n) (position parsed)
    ∧ (name parsed = None → isIncludeName m = true).
Proof.
  intros Hfp Hwt Ht Hparsed.
  destruct (walk_found fp file tree w Hfp Hwt) as [_ (_ & _ & Hnodup & _)].
  destruct (located_sound fp file tree w t Hfp Hwt Ht) as (n & spec & _ & Hn & Hres & _).
  exists n, (Object_assign n parsed).
  unfold resolvable in Hres. apply andb_true_iff in Hres as [Hdir _].
  split; [exact Hn|]. split; [exact Hdir|]. split.
  - unfold treeAfter. rewrite runIncludes_effect. simpl.
    pose proof (completionOrder_Permutation sched (located file tree w)) as Hperm.
    apply foldl_applyResolved_at; auto.
    + rewrite Hperm. eapply NoDup_fmap_1, Hnodup.
    + now rewrite Hperm.
    + intros t' Ht' Hne. rewrite Hperm in Ht'.
      split; intros Hpre; apply Hne; [|symmetry];
        now apply (located_apart fp file tree w).
  - repeat split. intros Hnone. unfold isIncludeName. simpl. rewrite Hnone. simpl.
    unfold isIncludeDirective in Hdir. apply andb_true_iff in Hdir as [_ Hinc].
    exact Hinc.
Qed.

(** C6. With a recorder on the file, [addDependency] is called once for each
    queued directive whose resolution succeeds, with the path that was
    read, an occurrence at a time and without merging equal paths; without
    a recorder nothing is reported, and the transform ends as it does with
    one. *)
Theorem dependency_reported_per_resolved_include
    (proc : Processor) (sched : list nat) (tree : Node) (file : VFile) (w : World)
    (r : option CompilerOptions) :
  let file' := withCompiler r file in
  let queue := located file' tree w in
  let w' := (remarkInclude proc sched tree file' w).2 in
  (∃ added, dependencies w' = dependencies w ++ added
     ∧ added ≡ₚ match r with
                | Some c => (λ t, (recorder c, targetPath t))
                              <$> filter (λ t, resolves proc t = true) queue
                | None => []
                end)
  ∧ (remarkInclude proc sched tree file' w).1
    = (remarkInclude proc sched tree (withCompiler None file) w).1.
Proof.
  intros file' queue w'.
  assert (Hw' : w' = (runIncludes proc sched tree file' w).2.2).
  { unfold w', remarkInclude.
    now destruct (runIncludes proc sched tree file' w) as [r0 [tree' w0]]. }
  split.
  - exists (mjoin (reported proc file' <$> completionOrder sched queue)). split.
    + rewrite Hw', runIncludes_effect. simpl. now rewrite walk_dependencies.
    + rewrite reported_join. simpl. destruct r as [c|]; [|reflexivity].
      now rewrite (completionOrder_Permutation sched queue).
  - unfold remarkInclude. rewrite !runIncludes_effect. simpl.
    unfold located.
    now rewrite (walk_same_path file' (withCompiler None file) tree w eq_refl).
Qed.

End IncludeClaims.

(** *** Failing builds *)

Section BuildClaims.
Context `{Host}.




End BuildClaims.

(** *** Directives the visitor does not queue *)

Section SkippedDirective.
Context `{Host}.

Lemma keepsOwn_refl (n : Node) : keepsOwn n n.
Proof. repeat split. Qed.

Lemma keepsOwn_trans (n1 n2 n3 : Node) :
  keepsOwn n1 n2 → keepsOwn n2 n3 → keepsOwn n1 n3.
Proof.
  unfold keepsOwn. intros (?&?&?&?&?&?) (?&?&?&?&?&?). repeat split; congruence.
Qed.

(** A write that is not at or above a place changes at most what is below
    the node of that place. *)
Lemma update_at_keepsOwn (f : Node → Node) (p : list nat) : ∀ q tree n,
  node_at p tree = Some n → ¬ q `prefix_of` p →
  ∃ n', node_at p (update_at q f tree) = Some n' ∧ keepsOwn n n'.
Proof.
  induction p as [|i p IH]; intros q tree n Hn Hq.
  - simpl in Hn. injection Hn as <-. destruct q as [|j q]; [destruct Hq; apply prefix_nil|].
    simpl. destruct (children tree) as [cs|] eqn:Hcs.
    + eexists. split; [reflexivity|]. unfold keepsOwn. simpl.
      rewrite Hcs. simpl. now rewrite length_alter.
    + exists tree. split; [reflexivity | apply keepsOwn_refl].
  - destruct q as [|j q]; [destruct Hq; apply prefix_nil|].
    simpl in Hn |- *. destruct (children tree) as [cs|] eqn:Hcs; [|discriminate].
    destruct (cs !! i) as [c|] eqn:Hc; [|discriminate]. simpl.
    destruct (decide (j = i)) as [->|Hji].
    + rewrite list_lookup_alter_eq, Hc. simpl. apply IH; [exact Hn|].
      intros Hpre. apply Hq. now apply prefix_cons.
    + rewrite list_lookup_alter_ne by exact Hji. rewrite Hc.
      exists n. split; [exact Hn | apply keepsOwn_refl].
Qed.

Lemma foldl_applyResolved_keepsOwn proc (p : list nat) (order : list Task) :
  Forall (λ t, ¬ site t `prefix_of` p) order →
  ∀ tree n, node_at p tree = Some n →
  ∃ n', node_at p (foldl (applyResolved proc) tree order) = Some n' ∧ keepsOwn n n'.
Proof.
  induction 1 as [|t order Ht _ IH]; intros tree n Hn; simpl.
  - exists n. split; [exact Hn | apply keepsOwn_refl].
  - assert (Hstep : ∃ n1, node_at p (applyResolved proc tree t) = Some n1 ∧ keepsOwn n n1).
    { unfold applyResolved. destruct (resolveInclude proc t) as [e|parsed].
      - exists n. split; [exact Hn | apply keepsOwn_refl].
      - now apply update_at_keepsOwn. }
    destruct Hstep as (n1 & Hn1 & Hk1). destruct (IH _ n1 Hn1) as (n' & Hn' & Hk').
    exists n'. split; [exact Hn' | now apply (keepsOwn_trans n n1 n')].
Qed.

(** No queued directive is at or above a node the walk reaches and does not
    queue. *)
Lemma located_not_above fp file tree w (p : list nat) (n : Node) (t : Task) :
  vpath file = Some fp → wellTyped tree = true →
  reached p tree = Some n → resolvable n = false →
  t ∈ located file tree w → ¬ site t `prefix_of` p.
Proof.
  intros Hfp Hwt Hn Hres Ht [k Hk].
  destruct (located_sound fp file tree w t Hfp Hwt Ht) as (m & _ & Hm & _ & Hres' & _).
  rewrite Hk in Hn.
  pose proof (reached_below_resolvable (site t) k tree m n Hm Hres' Hn) as ->.
  rewrite app_nil_r in Hn. congruence.
Qed.

(** The outcome of the transform on a well-typed tree with a path. *)
Lemma remarkInclude_fulfils fp proc sched file tree w :
  vpath file = Some fp → wellTyped tree = true →
  (remarkInclude proc sched tree file w).1 = Fulfilled (treeAfter proc sched tree file w)
  ↔ Forall (λ t, resolves proc t = true) (located file tree w).
Proof.
  intros Hfp Hwt.
  destruct (walk_found fp file tree w Hfp Hwt) as ((Hwalk & _) & _).
  unfold treeAfter, remarkInclude. rewrite runIncludes_effect. simpl. rewrite Hwalk.
  set (order := completionOrder sched (located file tree w)).
  assert (Hperm : order ≡ₚ located file tree w) by apply completionOrder_Permutation.
  rewrite <- Hperm.
  destruct (firstFailure proc order) as [e|] eqn:Hff.
  - split; [discriminate|]. intros Hall.
    rewrite (firstFailure_None proc order Hall) in Hff. discriminate.
  - split; [|reflexivity]. intros _. apply Forall_forall. intros t Ht.
    destruct (resolves proc t) eqn:Hres; [reflexivity|].
    destruct (firstFailure_exists proc order t Ht Hres) as [e He]. congruence.
Qed.

Lemma wellTyped_node_at (p : list nat) : ∀ tree n,
  wellTyped tree = true → node_at p tree = Some n → wellTyped n = true.
Proof.
  induction p as [|i p IH]; intros tree n Hwt Hn; simpl in Hn.
  - now injection Hn as <-.
  - rewrite wellTyped_unfold in Hwt. apply andb_true_iff in Hwt as [_ Hkids].
    destruct (children tree) as [cs|]; [|discriminate].
    destruct (cs !! i) as [c|] eqn:Hc; [|discriminate].
    apply (IH c n); [|exact Hn]. rewrite forallb_forall in Hkids.
    apply Hkids. apply list_elem_of_In. now apply list_elem_of_lookup_2 in Hc.
Qed.

(** The visitor on a directive without a text first child: the guard of
    line 61. *)
Lemma includeVisitor_unresolvable (file : VFile) (n : Node) :
  wellTyped n = true → isIncludeDirective n = true → firstChildIsText n = false →
  ∀ at_ s, includeVisitor file at_ n s = (inr CONTINUE, s).
Proof.
  intros Hwt Hdir Htext at_ s. unfold isIncludeDirective in Hdir.
  apply andb_true_iff in Hdir as [Hjsx Hname].
  rewrite wellTyped_unfold in Hwt. apply andb_true_iff in Hwt as [Hnode _].
  unfold nodeTyped in Hnode. rewrite Hjsx in Hnode.
  apply andb_true_iff in Hnode as [Hkids _]. apply bool_decide_eq_true in Hkids.
  destruct Hkids as [cs Hcs].
  unfold includeVisitor, firstChildIsText in *. rewrite Hname, Hcs in *.
  destruct cs as [|child cs]; [reflexivity|]. simpl. now rewrite Htext.
Qed.

Lemma runIncludes_no_path proc sched tree file w :
  vpath file = None →
  located file tree w = [] ∧ treeAfter proc sched tree file w = tree.
Proof.
  intros Hp. unfold located, treeAfter, runIncludes, walk.
  destruct (visit_without_path file tree Hp [] ([], w)) as (r & -> & _).
  split; reflexivity.
Qed.

(** C8. An include directive the walk reaches and whose first child is
    missing or is not a text is skipped without an error, whether the
    document has a path or not: the visitor returns nothing and leaves the
    queue and the store as they are, the directive is not queued, so that
    nothing is read or parsed for it, and after the transform the node at
    its place has the type, the name, the attributes, the value and the
    position it had, and as many children. When no directive below it is
    queued the node is the same altogether. With a path the walk ends
    normally, and the transform is fulfilled exactly when the directives
    that were queued resolve, of which this one is none. *)
Theorem unresolvable_include_is_skipped
    (proc : Processor) (sched : list nat) (file : VFile)
    (tree : Node) (w : World) (p : list nat) (n : Node) :
  wellTyped tree = true →
  reached p tree = Some n →
  isIncludeDirective n = true → firstChildIsText n = false →
  (∀ at_ s, includeVisitor file at_ n s = (inr CONTINUE, s))
  ∧ (∀ t, t ∈ located file tree w → site t ≠ p)
  ∧ (∃ n', node_at p (treeAfter proc sched tree file w) = Some n'
           ∧ type n' = type n ∧ name n' = name n ∧ attributes n' = attributes n
           ∧ value n' = value n ∧ position n' = position n
           ∧ length <$> children n' = length <$> children n)
  ∧ ((∀ t, t ∈ located file tree w → ¬ p `prefix_of` site t) →
     node_at p (treeAfter proc sched tree file w) = Some n)
  ∧ (is_Some (vpath file) →
     (walk file tree w).1 = inr ()
     ∧ ((remarkInclude proc sched tree file w).1
          = Fulfilled (treeAfter proc sched tree file w)
        ↔ Forall (λ t, resolves proc t = true) (located file tree w))).
Proof.
  intros Hwt Hn Hdir Htext.
  assert (Hres : resolvable n = false)
    by (unfold resolvable; rewrite Htext; apply andb_false_r).
  pose proof (reached_node_at p tree n Hn) as Hat.
  split.
  { apply includeVisitor_unresolvable; [|exact Hdir | exact Htext].
    exact (wellTyped_node_at p tree n Hwt Hat). }
  destruct (vpath file) as [fp|] eqn:Hfp.
  - split; [|split; [|split]].
    + intros t Ht Hsite.
      apply (located_not_above fp file tree w p n t Hfp Hwt Hn Hres Ht).
      now rewrite Hsite.
    + unfold treeAfter. rewrite runIncludes_effect. simpl.
      apply foldl_applyResolved_keepsOwn; [|exact Hat].
      apply Forall_forall. intros t Ht.
      rewrite (completionOrder_Permutation sched (located file tree w)) in Ht.
      now apply (located_not_above fp file tree w p n t).
    + now apply (unqueued_node_kept fp).
    + intros _. destruct (walk_found fp file tree w Hfp Hwt) as ((Hwalk & _) & _).
      split; [exact Hwalk | now apply (remarkInclude_fulfils fp)].
  - destruct (runIncludes_no_path proc sched tree file w Hfp) as [Hq Hafter].
    rewrite Hq, Hafter. split; [|split; [|split]].
    + intros t Ht. apply elem_of_nil in Ht. destruct Ht.
    + exists n. split; [exact Hat | repeat split].
    + intros _. exact Hat.
    + intros [fp Hsome]. discriminate.
Qed.

End SkippedDirective.

(** *** The properties on the sample documents *)

(** C4, as the specification words it, fails: the include directive inside
    the [div] element is never visited. *)
Lemma include_inside_jsx_is_not_located :
  let file := Sample.fileAt (Some "/docs/a.mdx") None in
  node_at [0; 0] Sample.docInDiv = Some (Sample.includeOf "b.mdx")
  ∧ isIncludeDirective (Sample.includeOf "b.mdx") = true
  ∧ firstChildIsText (Sample.includeOf "b.mdx") = true
  ∧ (walk (H := Sample.host) file Sample.docInDiv emptyWorld).1 = inr ()
  ∧ located (H := Sample.host) file Sample.docInDiv emptyWorld = [].
Proof. repeat split; reflexivity. Qed.

Lemma walk_locates_includes_witness :
  let file := Sample.fileAt (Some "/docs/a.mdx") None in
  let tree := Sample.root [ Sample.jsx "div" [Sample.includeOf "b.mdx"];
                            Sample.jsx "include" [Sample.includeOf "b.mdx"];
                            Sample.paragraph [Sample.text "and"];
                            Sample.includeOf "c.mdx" ] in
  let queue := located (H := Sample.host) file tree emptyWorld in
  queue = [ {| site := [1; 0]; targetPath := "/docs/b.mdx" |};
            {| site := [3]; targetPath := "/docs/c.mdx" |} ]
  ∧ (walk (H := Sample.host) file tree emptyWorld).1 = inr ()
  ∧ (∀ p, p ∈ site <$> queue ↔
          ∃ m, node_at p tree = Some m ∧ resolvable m = true
               ∧ ∀ q a, q `prefix_of` p → q ≠ p → node_at q tree = Some a →
                   isJsxFlow a = false
                   ∨ (isIncludeName a = true ∧ firstChildIsText a = false))
  ∧ (∀ p m, outsideJsx p tree = Some m → resolvable m = true → p ∈ site <$> queue)
  ∧ (∀ t, t ∈ queue → ∃ m spec,
        node_at (site t) tree = Some m ∧ resolvable m = true
        ∧ specifierOf m = Some spec
        ∧ targetPath t = Sample.posixResolve (Sample.posixDirname "/docs/a.mdx") spec)
  ∧ (∀ t1 t2, t1 ∈ queue → t2 ∈ queue → site t1 `prefix_of` site t2 → t1 = t2)
  ∧ NoDup (site <$> queue)
  ∧ StronglySorted before (site <$> queue).
Proof.
  intros file tree queue. split; [reflexivity|].
  apply (walk_locates_includes (H := Sample.host) "/docs/a.mdx" file tree
           emptyWorld); reflexivity.
Defined.

(** C5, as the specification words it, fails: after the resolution the node
    still carries the name and the attributes of the include directive. *)
Lemma include_name_survives_resolution :
  let file := Sample.fileAt (Some "/docs/a.mdx") None in
  let after := treeAfter (H := Sample.host) Sample.sampleProcessor [] Sample.docOne file
                 emptyWorld in
  ∃ m, node_at [0] after = Some m
       ∧ type m = "root"
       ∧ name m = Some (Some "include")
       ∧ attributes m = Some []
       ∧ isIncludeName m = true.
Proof. eexists. repeat split; reflexivity. Qed.

Lemma resolved_include_takes_parsed_fields_witness :
  let file := Sample.fileAt (Some "/docs/a.mdx") None in
  let t := {| site := [0]; targetPath := "/docs/b.mdx" |} in
  let parsed := Sample.root [Sample.paragraph [Sample.text "Hello"]] in
  ∃ n m, node_at (site t) Sample.docOne = Some n ∧ isIncludeDirective n = true
    ∧ node_at (site t)
        (treeAfter (H := Sample.host) Sample.sampleProcessor [] Sample.docOne file emptyWorld)
      = Some m
    ∧ m = Object_assign n parsed
    ∧ type m = type parsed
    ∧ name m = assignField (name n) (name parsed)
    ∧ attributes m = assignField (attributes n) (attributes parsed)
    ∧ value m = assignField (value n) (value parsed)
    ∧ children m = assignField (children n) (children parsed)
    ∧ position m = assignField (position n) (position parsed)
    ∧ (name parsed = None → isIncludeName m = true).
Proof.
  intros file t parsed.
  apply (resolved_include_takes_parsed_fields (H := Sample.host) "/docs/a.mdx"
           Sample.sampleProcessor [] file Sample.docOne emptyWorld t parsed).
  - reflexivity.
  - reflexivity.
  - assert (Hq : located (H := Sample.host) file Sample.docOne emptyWorld = [t])
      by reflexivity.
    rewrite Hq. apply list_elem_of_here.
  - reflexivity.
Defined.

Lemma dependency_reported_per_resolved_include_witness :
  let file := withCompiler (Some {| recorder := 7 |})
                (Sample.fileAt (Some "/docs/a.mdx") None) in
  let w' := (remarkInclude (H := Sample.host) Sample.sampleProcessor [1]
               Sample.docMissing file emptyWorld).2 in
  located (H := Sample.host) file Sample.docMissing emptyWorld
  = [ {| site := [0]; targetPath := "/docs/b.mdx" |};
      {| site := [1]; targetPath := "/docs/nowhere.mdx" |} ]
  ∧ ∃ added, dependencies w' = [] ++ added ∧ added ≡ₚ [(7, "/docs/b.mdx")].
Proof.
  intros file w'. split; [reflexivity|].
  exact (proj1 (dependency_reported_per_resolved_include (H := Sample.host)
                  Sample.sampleProcessor [1] Sample.docMissing
                  (Sample.fileAt (Some "/docs/a.mdx") None) emptyWorld
                  (Some {| recorder := 7 |}))).
Defined.

(** The document at /docs/a.mdx includes b.mdx: one read, one report. *)
Example one_include_one_report :
  let w := (buildMDX (H := Sample.host) "docs" "h1" "one"
              (Sample.withRecorder 7 Sample.atDocs) [] emptyWorld).2 in
  reads w = ["/docs/b.mdx"] ∧ dependencies w = [(7, "/docs/b.mdx")].
Proof. split; reflexivity. Qed.

(** An include directive without children is left as it is. *)
Example empty_include_kept :
  treeAfter (H := Sample.host) Sample.sampleProcessor [] Sample.docEmptyInclude
            (Sample.fileAt (Some "/docs/a.mdx") None) emptyWorld
  = Sample.docEmptyInclude.
Proof. reflexivity. Qed.

(** The same file included twice is reported twice, whatever the order in
    which the reads complete. *)
Example twice_reports_twice :
  let file := Sample.fileAt (Some "/docs/a.mdx") (Some {| recorder := 7 |}) in
  dependencies (remarkInclude (H := Sample.host) Sample.sampleProcessor [1]
                  Sample.docTwice file emptyWorld).2
  = [(7, "/docs/b.mdx"); (7, "/docs/b.mdx")].
Proof. reflexivity. Qed.


(** The walk goes on below a directive it does not queue: the outer
    directive has no text first child, the directive inside is resolved, and
    the children of the outer one are no longer what they were. *)
Example nested_include_rewrites_outer_directive :
  let file := Sample.fileAt (Some "/docs/a.mdx") None in
  let outer := Sample.jsx "include" [Sample.includeOf "b.mdx"] in
  let run := runIncludes (H := Sample.host) Sample.sampleProcessor [] Sample.docInInclude
               file emptyWorld in
  node_at [0] Sample.docInInclude = Some outer
  ∧ isIncludeDirective outer = true
  ∧ firstChildIsText outer = false
  ∧ run.1 = inr ()
  ∧ reads run.2.2 = ["/docs/b.mdx"]
  ∧ node_at [0] run.2.1 ≠ Some outer.
Proof. repeat split; try reflexivity. discriminate. Qed.

Lemma unresolvable_include_is_skipped_witness :
  let file := Sample.fileAt (Some "/docs/a.mdx") None in
  let outer := Sample.jsx "include" [Sample.includeOf "b.mdx"] in
  let after := treeAfter (H := Sample.host) Sample.sampleProcessor [] Sample.docInInclude
                 file emptyWorld in
  (∀ at_ s, includeVisitor (H := Sample.host) file at_ outer s = (inr CONTINUE, s))
  ∧ (∀ t, t ∈ located (H := Sample.host) file Sample.docInInclude emptyWorld →
          site t ≠ [0])
  ∧ (∃ n', node_at [0] after = Some n'
           ∧ type n' = type outer ∧ name n' = name outer
           ∧ attributes n' = attributes outer
           ∧ value n' = value outer ∧ position n' = position outer
           ∧ length <$> children n' = length <$> children outer)
  ∧ ((∀ t, t ∈ located (H := Sample.host) file Sample.docInInclude emptyWorld →
           ¬ [0] `prefix_of` site t) →
     node_at [0] after = Some outer)
  ∧ (is_Some (vpath file) →
     (walk (H := Sample.host) file Sample.docInInclude emptyWorld).1 = inr ()
     ∧ ((remarkInclude (H := Sample.host) Sample.sampleProcessor [] Sample.docInInclude
           file emptyWorld).1 = Fulfilled after
        ↔ Forall (λ t, resolves (H := Sample.host) Sample.sampleProcessor t = true)
            (located (H := Sample.host) file Sample.docInInclude emptyWorld))).
Proof.
  intros file outer after.
  apply (unresolvable_include_is_skipped (H := Sample.host)
           Sample.sampleProcessor [] file Sample.docInInclude emptyWorld [0] outer);
    reflexivity.
Defined.




(** ** Further properties of the cache *)

(** X1. The keys of two calls are equal exactly when their groups and their
    formats are: with the two formats the type allows, the separator of
    [cacheKey] cannot make two pairs collide. *)
Theorem cacheKey_no_collision (g1 g2 : string) (f1 f2 : Format) :
  cacheKey g1 (formatString f1) = cacheKey g2 (formatString f2) ↔ g1 = g2 ∧ f1 = f2.
Proof.
  split; [apply cacheKey_inj|]. now intros [-> ->].
Qed.

Section CacheExtras.
Context `{Host}.

(** X3. The options of a call are read only when the processor is built.
    After a call has built the processor of a key, a call with the same
    group, format and fingerprint but other options goes on with that
    processor, whose settings are those of the first call. *)
Theorem hit_keeps_first_options
    (g h src : string) (o o' : MDXOptions) (sched : list nat) (w : World) :
  stale (cacheKey g (formatString (resolveFormat o))) h w = true →
  createProcessor_check (processorOptions (resolveFormat o) o) = None →
  resolveFormat o' = resolveFormat o →
  let w1 := (buildMDX g h src o sched w).2 in
  (cachedProcessor g h o' w1).1
  = inr {| processor := {| pid := constructed w;
                           settings := processorOptions (resolveFormat o) o |};
           configHash := h |}
  ∧ (cachedProcessor g h o' w1).2 = w1.
Proof.
  intros Hst Hok Hfmt w1.
  pose proof (cachedProcessor_stale g h o w Hst) as Hstep. simpl in Hstep.
  rewrite Hok in Hstep.
  destruct (buildMDX_frame g h src o sched w) as [Hcache _]. fold w1 in Hcache.
  rewrite Hstep in Hcache. simpl in Hcache.
  assert (Hfresh : stale (cacheKey g (formatString (resolveFormat o'))) h w1 = false).
  { unfold stale. rewrite Hcache, Hfmt, lookup_insert_eq. simpl.
    now rewrite String.eqb_refl. }
  destruct (cachedProcessor_fresh g h o' w1 Hfresh) as (c & Hl & _ & ->).
  rewrite Hcache, Hfmt, lookup_insert_eq in Hl. injection Hl as <-. now split.
Qed.

(** X4. A call writes at most the entry of its own key: the entries of all
    other keys are what they were, and no key that has an entry loses it. *)
Theorem build_touches_only_its_key
    (g h src : string) (o : MDXOptions) (sched : list nat) (w : World) :
  let w' := (buildMDX g h src o sched w).2 in
  (∀ k, k ≠ cacheKey g (formatString (resolveFormat o)) →
        cache w' !! k = cache w !! k)
  ∧ (∀ k, is_Some (cache w !! k) → is_Some (cache w' !! k)).
Proof.
  intros w'. destruct (buildMDX_frame g h src o sched w) as [Hcache _].
  fold w' in Hcache. rewrite Hcache. split.
  - intros k Hk. now apply cachedProcessor_other.
  - intros k Hsome.
    destruct (decide (k = cacheKey g (formatString (resolveFormat o)))) as [->|Hk];
      [|now rewrite cachedProcessor_other].
    destruct (stale (cacheKey g (formatString (resolveFormat o))) h w) eqn:Hst.
    + rewrite (cachedProcessor_stale g h o w Hst).
      destruct (createProcessor_check _) as [err|]; simpl; [exact Hsome|].
      rewrite lookup_insert_eq. eauto.
    + destruct (cachedProcessor_fresh g h o w Hst) as (c & _ & _ & ->). exact Hsome.
Qed.

(** X5. A construction that fails is not remembered: after the throw the
    key is as stale as before, and the same call throws the same error
    again after calling [createProcessor] once more. *)
Theorem failed_construction_is_retried
    (g h src src' : string) (o : MDXOptions) (sched sched' : list nat)
    (w : World) (e : Error) :
  stale (cacheKey g (formatString (resolveFormat o))) h w = true →
  createProcessor_check (processorOptions (resolveFormat o) o) = Some e →
  let w' := (buildMDX g h src o sched w).2 in
  stale (cacheKey g (formatString (resolveFormat o))) h w' = true
  ∧ (buildMDX g h src' o sched' w').1 = inl e
  ∧ constructed (buildMDX g h src' o sched' w').2 = S (S (constructed w)).
Proof.
  intros Hst Hthrow w'.
  pose proof (cachedProcessor_stale g h o w Hst) as Hstep. simpl in Hstep.
  rewrite Hthrow in Hstep.
  assert (Hw' : w' = counted w).
  { unfold w'. rewrite buildMDX_unfold, Hstep. reflexivity. }
  assert (Hst' : stale (cacheKey g (formatString (resolveFormat o))) h w' = true)
    by (rewrite Hw'; exact Hst).
  split; [exact Hst'|].
  pose proof (cachedProcessor_stale g h o w' Hst') as Hstep'. simpl in Hstep'.
  rewrite Hthrow in Hstep'. rewrite buildMDX_unfold, Hstep', Hw'. split; reflexivity.
Qed.

Lemma runCalls_snoc (cs : list Call) (c : Call) (w : World) :
  runCalls (cs ++ [c]) w = runCall c (runCalls cs w).
Proof. unfold runCalls. now rewrite foldl_app. Qed.

(** X6. Every entry of the cache comes from a call that was made: one with
    the key of the entry and its fingerprint, and the processor of the entry
    has the settings [buildMDX] derives from the options of that call. *)
Theorem cache_entries_come_from_calls (history : list Call) (k : string) (e : CacheEntry) :
  cache (runCalls history emptyWorld) !! k = Some e →
  ∃ call, call ∈ history ∧ callKey call = k ∧ callHash call = configHash e
          ∧ settings (processor e)
            = processorOptions (resolveFormat (callOptions call)) (callOptions call).
Proof.
  revert k e. induction history as [|c history IH] using rev_ind; intros k e.
  - simpl. rewrite lookup_empty. discriminate.
  - rewrite runCalls_snoc. set (w := runCalls history emptyWorld) in *.
    destruct (runCall_cache c w) as [-> _].
    assert (Hold : cache w !! k = Some e →
      ∃ call, call ∈ history ++ [c] ∧ callKey call = k ∧ callHash call = configHash e
              ∧ settings (processor e)
                = processorOptions (resolveFormat (callOptions call)) (callOptions call)).
    { intros He. destruct (IH k e He) as (call & Hin & Hrest).
      exists call. split; [apply elem_of_app; auto | exact Hrest]. }
    destruct (stale (callKey c) (callHash c) w) eqn:Hst; unfold callKey in Hst.
    + rewrite (cachedProcessor_stale _ _ _ _ Hst).
      destruct (createProcessor_check _) as [err|]; simpl; [exact Hold|].
      rewrite lookup_insert. case_decide; [|exact Hold].
      intros [= <-]. exists c. simpl.
      split; [apply elem_of_app; right; apply list_elem_of_here|]. auto.
    + destruct (cachedProcessor_fresh _ _ _ _ Hst) as (c' & _ & _ & ->). exact Hold.
Qed.

End CacheExtras.

(** ** Further properties of the include transform *)

(** What every run of [remarkInclude] keeps, the later transforms and the
    whole pipeline keep. *)
Section PipelineInvariant.
Context `{Host}.
Variable file : VFile.
Variable R : World → World → Prop.
Hypothesis R_refl : ∀ w, R w w.
Hypothesis R_trans : ∀ w1 w2 w3, R w1 w2 → R w2 w3 → R w1 w3.
Hypothesis R_include : ∀ proc sched tree w, R w (remarkInclude proc sched tree file w).2.

Lemma runTransforms_keeps proc sched plugins : ∀ tree w,
  R w (runTransforms proc sched plugins tree file w).2.
Proof.
  induction plugins as [|plugin plugins IH]; intros tree w; simpl; [apply R_refl|].
  destruct plugin as [|id].
  - pose proof (R_include proc sched tree w) as H1.
    destruct (remarkInclude proc sched tree file w) as [[tree'|e] w']; simpl in *;
      [|exact H1].
    eapply R_trans; [exact H1 | apply IH].
  - destruct (userTransform id tree file) as [e|tree']; [apply R_refl | apply IH].
Qed.

Lemma process_keeps proc sched w : R w (process proc sched file w).2.
Proof.
  unfold process. destruct (emptyPath file); [apply R_refl|].
  destruct (parse (settings proc) (vvalue file)) as [e|parsed]; [apply R_refl|].
  pose proof (runTransforms_keeps proc sched (p_remarkPlugins (settings proc))
                (ownTransforms (settings proc) parsed) w) as H1.
  destruct (runTransforms _ _ _ _ _ _) as [[tree'|e] w']; exact H1.
Qed.

End PipelineInvariant.

Section IncludeExtras.
Context `{Host}.

Lemma walk_reads (file : VFile) (tree : Node) (w : World) :
  reads (walk file tree w).2.2 = reads w ++ (targetPath <$> located file tree w).
Proof.
  unfold located, walk.
  apply (visit_keeps isJsxFlow (includeVisitor file)
           (λ s, reads s.2 = reads w ++ (targetPath <$> s.1)));
    [|simpl; now rewrite app_nil_r].
  intros at_ n [q w0] Hs. unfold includeVisitor.
  destruct (isIncludeName n); [|exact Hs].
  destruct (children n) as [cs|]; [|exact Hs].
  destruct (head cs) as [child|]; [|exact Hs].
  destruct (negb (isType "text" child)); [exact Hs|].
  destruct (path_dirname (vpath file)) as [e|dir]; [exact Hs|].
  destruct (path_resolve dir (value child)) as [e|target]; [exact Hs|].
  simpl in *. rewrite Hs, fmap_app, app_assoc. reflexivity.
Qed.

Lemma remarkInclude_world proc sched tree file w :
  (remarkInclude proc sched tree file w).2 = (runIncludes proc sched tree file w).2.2.
Proof.
  unfold remarkInclude. now destruct (runIncludes proc sched tree file w) as [r [tree' w']].
Qed.

(** X7. The files the transform reads are those of the directives it
    queued, one read for each, in document order; this holds as well when
    the walk or a resolution fails, and no callback reads a file. *)
Theorem reads_follow_queue
    (proc : Processor) (sched : list nat) (tree : Node) (file : VFile) (w : World) :
  reads (remarkInclude proc sched tree file w).2
  = reads w ++ (targetPath <$> located file tree w).
Proof.
  rewrite remarkInclude_world, runIncludes_effect. simpl. apply walk_reads.
Qed.

Lemma visitChildren_nothing {St : Type} (f : nat → Node → M St ()) (cs : list Node) :
  Forall (λ c, ∀ i s, f i c s = (inr (), s)) cs →
  ∀ i s, visitChildren f i cs s = (inr (), s).
Proof.
  induction 1 as [|c cs Hc _ IH]; intros i s; simpl; [reflexivity|].
  now rewrite Hc.
Qed.

Lemma walk_includeFree (file : VFile) (n : Node) :
  includeFree n = true →
  ∀ at_ s, visit isJsxFlow (includeVisitor file) at_ n s = (inr (), s).
Proof.
  induction n as [t nm ats v cs pos IH] using Node_induction.
  intros Hfree at_ s. rewrite visit_unfold. simpl in Hfree.
  destruct (isJsxFlow (mkNode t nm ats v cs pos)) eqn:Hjsx.
  - unfold includeVisitor. apply negb_true_iff in Hfree. now rewrite Hfree.
  - simpl. destruct cs as [cs|]; [|reflexivity].
    apply visitChildren_nothing. simpl in IH.
    rewrite forallb_forall in Hfree. rewrite Forall_forall in IH |- *.
    intros c Hc i s'. apply IH; [exact Hc|]. apply Hfree.
    now apply list_elem_of_In.
Qed.

(** X8. A tree with no include directive outside its JSX elements goes
    through the transform as it is: the promise is fulfilled with the same
    tree, no file is read and nothing is reported, whether the document has
    a path or not. *)
Theorem include_free_tree_unchanged
    (proc : Processor) (sched : list nat) (tree : Node) (file : VFile) (w : World) :
  includeFree tree = true →
  remarkInclude proc sched tree file w = (Fulfilled tree, w).
Proof.
  intros Hfree. unfold remarkInclude, runIncludes, walk.
  rewrite (walk_includeFree file tree Hfree). reflexivity.
Qed.

Lemma runIncludes_without_path proc sched tree file w :
  vpath file = None → (runIncludes proc sched tree file w).2 = (tree, w).
Proof.
  intros Hp. unfold runIncludes, walk.
  destruct (visit_without_path file tree Hp [] ([], w)) as (r & -> & _).
  reflexivity.
Qed.

(** X9. A call without a path reads no file and reports no dependency,
    whatever the document and the plugins are: the reads and the reports of
    the store are those from before the call. *)
Theorem build_without_path_reads_nothing
    (g h src : string) (o : MDXOptions) (sched : list nat) (w : World) :
  filePath o = None →
  reads (buildMDX g h src o sched w).2 = reads w
  ∧ dependencies (buildMDX g h src o sched w).2 = dependencies w.
Proof.
  intros Hp. rewrite buildMDX_unfold.
  pose proof (cachedProcessor_reads g h o w) as Hc.
  destruct (cachedProcessor g h o w) as [[e|c] w1]; [exact Hc|].
  assert (Hsame : (process (processor c) sched (fileOf src o) w1).2 = w1).
  { apply (process_keeps (fileOf src o) (λ w w', w' = w)).
    - reflexivity.
    - intros w2 w3 w4 -> ->. reflexivity.
    - intros proc sch tree w0. rewrite remarkInclude_world.
      now rewrite runIncludes_without_path. }
  destruct (process _ _ _ _) as [r w']. simpl in *. now subst w'.
Qed.

End IncludeExtras.

Section ResolutionExtras.
Context `{Host}.

Lemma foldl_applyResolved_kept proc p order : ∀ tree,
  Forall (λ t, resolves proc t = true →
               ¬ site t `prefix_of` p ∧ ¬ p `prefix_of` site t) order →
  node_at p (foldl (applyResolved proc) tree order) = node_at p tree.
Proof.
  induction order as [|t order IH]; intros tree Hall; simpl; [reflexivity|].
  apply Forall_cons in Hall as [Ht Hall]. rewrite IH by exact Hall.
  unfold applyResolved. unfold resolves in Ht.
  destruct (resolveInclude proc t); [reflexivity|].
  destruct (Ht eq_refl). now apply node_at_update_apart.
Qed.

(** X10. The transform writes only where a resolution succeeded: a place
    of the tree that is neither at, above nor below a queued directive whose
    file was read and parsed holds after the transform the node it held
    before, whether the transform fulfils or rejects. *)
Theorem only_resolved_sites_are_written
    (proc : Processor) (sched : list nat) (tree : Node) (file : VFile) (w : World)
    (p : list nat) :
  (∀ t, t ∈ located file tree w → resolves proc t = true →
        ¬ site t `prefix_of` p ∧ ¬ p `prefix_of` site t) →
  node_at p (treeAfter proc sched tree file w) = node_at p tree.
Proof.
  intros Hall. unfold treeAfter. rewrite runIncludes_effect. simpl.
  apply foldl_applyResolved_kept. apply Forall_forall. intros t Ht. apply Hall.
  now rewrite <- (completionOrder_Permutation sched (located file tree w)).
Qed.

(** X11. A directive whose resolution fails stays in the tree as it was,
    also when other directives of the same document are resolved before or
    after it. *)
Theorem failed_include_keeps_directive
    (fp : string) (proc : Processor) (sched : list nat) (file : VFile)
    (tree : Node) (w : World) (t : Task) :
  vpath file = Some fp → wellTyped tree = true →
  t ∈ located file tree w → resolves proc t = false →
  ∃ n, node_at (site t) tree = Some n ∧ resolvable n = true
       ∧ node_at (site t) (treeAfter proc sched tree file w) = Some n.
Proof.
  intros Hfp Hwt Ht Hfail.
  destruct (located_sound fp file tree w t Hfp Hwt Ht) as (m & spec & _ & Hat & Hres & _).
  exists m. split; [exact Hat|]. split; [exact Hres|].
  rewrite <- Hat. unfold treeAfter. rewrite runIncludes_effect. simpl.
  apply foldl_applyResolved_kept. apply Forall_forall. intros t' Ht' Hok.
  rewrite (completionOrder_Permutation sched (located file tree w)) in Ht'.
  assert (Hne : t' ≠ t) by (intros ->; congruence).
  split; intros Hpre; apply Hne.
  - exact (located_apart fp file tree w t' t Hfp Hwt Ht' Ht Hpre).
  - symmetry. exact (located_apart fp file tree w t t' Hfp Hwt Ht Ht' Hpre).
Qed.

Lemma update_at_commute (p q : list nat) (f g : Node → Node) : ∀ n,
  ¬ p `prefix_of` q → ¬ q `prefix_of` p →
  update_at p f (update_at q g n) = update_at q g (update_at p f n).
Proof.
  revert q. induction p as [|i p IH]; intros q n Hpq Hqp.
  - destruct Hpq. apply prefix_nil.
  - destruct q as [|j q]; [destruct Hqp; apply prefix_nil|].
    simpl. destruct (children n) as [cs|] eqn:Hcs; simpl; [|now rewrite Hcs].
    f_equal. f_equal.
    destruct (decide (i = j)) as [->|Hij].
    + rewrite !list_alter_alter_eq. apply list_alter_ext; [|reflexivity].
      intros c _. simpl. apply IH.
      * intros Hpre. apply Hpq. now apply prefix_cons.
      * intros Hpre. apply Hqp. now apply prefix_cons.
    + now apply list_alter_alter_ne.
Qed.

Lemma applyResolved_commute proc (t1 t2 : Task) (tree : Node) :
  ¬ site t1 `prefix_of` site t2 → ¬ site t2 `prefix_of` site t1 →
  applyResolved proc (applyResolved proc tree t1) t2
  = applyResolved proc (applyResolved proc tree t2) t1.
Proof.
  intros H12 H21. unfold applyResolved.
  destruct (resolveInclude proc t1), (resolveInclude proc t2); try reflexivity.
  now apply update_at_commute.
Qed.

Lemma foldl_applyResolved_Permutation proc (l1 l2 : list Task) :
  l1 ≡ₚ l2 →
  (∀ t1 t2, t1 ∈ l1 → t2 ∈ l1 → site t1 `prefix_of` site t2 → t1 = t2) →
  NoDup l1 →
  ∀ tree, foldl (applyResolved proc) tree l1 = foldl (applyResolved proc) tree l2.
Proof.
  induction 1 as [|x l l' Hperm IH|x y l|l l' l'' Hp1 IH1 Hp2 IH2];
    intros Hapart Hnd tree; simpl.
  - reflexivity.
  - apply NoDup_cons in Hnd as [_ Hnd]. apply IH; [|exact Hnd].
    intros t1 t2 H1 H2. apply Hapart; now apply elem_of_cons; right.
  - f_equal. apply NoDup_cons in Hnd as [Hy _].
    apply applyResolved_commute; intros Hpre; apply Hy.
    + rewrite (Hapart y x); [apply list_elem_of_here| | |exact Hpre].
      * apply list_elem_of_here.
      * apply elem_of_cons; right; apply list_elem_of_here.
    + rewrite <- (Hapart x y); [apply list_elem_of_here| | |exact Hpre].
      * apply elem_of_cons; right; apply list_elem_of_here.
      * apply list_elem_of_here.
  - rewrite IH1 by assumption. apply IH2.
    + intros t1 t2 H1 H2. apply Hapart; now rewrite Hp1.
    + now rewrite <- Hp1.
Qed.

Lemma located_NoDup fp file tree w :
  vpath file = Some fp → wellTyped tree = true → NoDup (located file tree w).
Proof.
  intros Hfp Hwt. destruct (walk_found fp file tree w Hfp Hwt) as (_ & _ & _ & Hnd & _).
  eapply NoDup_fmap_1. exact Hnd.
Qed.

Lemma treeAfter_queue_order fp proc sched tree file w :
  vpath file = Some fp → wellTyped tree = true →
  treeAfter proc sched tree file w
  = foldl (applyResolved proc) tree (located file tree w).
Proof.
  intros Hfp Hwt. unfold treeAfter. rewrite runIncludes_effect. simpl.
  symmetry. apply foldl_applyResolved_Permutation.
  - symmetry. apply completionOrder_Permutation.
  - intros t1 t2. apply (located_apart fp); assumption.
  - now apply (located_NoDup fp).
Qed.

(** X12. The tree the transform leaves does not depend on the order in
    which the reads complete: two schedules give the same tree, the one
    obtained by resolving the directives in document order. *)
Theorem tree_independent_of_completion_order
    (fp : string) (proc : Processor) (s1 s2 : list nat) (file : VFile)
    (tree : Node) (w : World) :
  vpath file = Some fp → wellTyped tree = true →
  treeAfter proc s1 tree file w = treeAfter proc s2 tree file w
  ∧ treeAfter proc s1 tree file w
    = foldl (applyResolved proc) tree (located file tree w).
Proof.
  intros Hfp Hwt. rewrite !(treeAfter_queue_order fp) by assumption. now split.
Qed.


End ResolutionExtras.

Section ReportExtras.
Context `{Host}.

Lemma reportsReads_refl c w : reportsReads c w w.
Proof.
  exists [], []. rewrite !app_nil_r. split; [reflexivity|]. split; [reflexivity|].
  intros d Hd. apply elem_of_nil in Hd. destruct Hd.
Qed.

Lemma reportsReads_trans c w1 w2 w3 :
  reportsReads c w1 w2 → reportsReads c w2 w3 → reportsReads c w1 w3.
Proof.
  intros (rd1 & ad1 & Hr1 & Hd1 & H1) (rd2 & ad2 & Hr2 & Hd2 & H2).
  exists (rd1 ++ rd2), (ad1 ++ ad2).
  rewrite Hr2, Hr1, Hd2, Hd1, !app_assoc. split; [reflexivity|]. split; [reflexivity|].
  intros d Hd. rewrite elem_of_app.
  apply elem_of_app in Hd as [Hd|Hd]; [destruct (H1 d Hd) | destruct (H2 d Hd)]; auto.
Qed.

Lemma remarkInclude_reportsReads proc sched tree file w :
  reportsReads (data_compiler (vdata file)) w (remarkInclude proc sched tree file w).2.
Proof.
  exists (targetPath <$> located file tree w),
         (mjoin (reported proc file <$> completionOrder sched (located file tree w))).
  rewrite remarkInclude_world, runIncludes_effect. simpl.
  rewrite walk_reads, walk_dependencies. split; [reflexivity|]. split; [reflexivity|].
  intros d Hd. rewrite reported_join in Hd.
  destruct (data_compiler (vdata file)) as [c|]; [|apply elem_of_nil in Hd; destruct Hd].
  apply list_elem_of_fmap in Hd as (t & -> & Ht).
  apply list_elem_of_filter in Ht as [_ Ht].
  rewrite (completionOrder_Permutation sched (located file tree w)) in Ht.
  split; [exists c; now split|]. simpl. apply list_elem_of_fmap. now exists t.
Qed.

(** X14. The dependencies a call reports go to the recorder given with
    that call, also when the processor comes from the cache and was built
    for a call with another recorder; each reported path is one the call has
    read, and a call without a recorder reports nothing. *)
Theorem reports_go_to_the_recorder_of_the_call
    (g h src : string) (o : MDXOptions) (sched : list nat) (w : World) :
  ∃ rd added,
    reads (buildMDX g h src o sched w).2 = reads w ++ rd
    ∧ dependencies (buildMDX g h src o sched w).2 = dependencies w ++ added
    ∧ ∀ d, d ∈ added → (∃ r, _compiler o = Some r ∧ d.1 = recorder r) ∧ d.2 ∈ rd.
Proof.
  change (reportsReads (_compiler o) w (buildMDX g h src o sched w).2).
  rewrite buildMDX_unfold.
  destruct (cachedProcessor_reads g h o w) as [Hr Hd].
  destruct (cachedProcessor g h o w) as [[e|c] w1]; simpl in *.
  - exists [], []. rewrite !app_nil_r. split; [exact Hr|]. split; [exact Hd|].
    intros d Hin. apply elem_of_nil in Hin. destruct Hin.
  - assert (Hstep : reportsReads (_compiler o) w1
                      (process (processor c) sched (fileOf src o) w1).2).
    { apply (process_keeps (fileOf src o) (reportsReads (_compiler o))).
      - apply reportsReads_refl.
      - apply reportsReads_trans.
      - intros proc sch tree w0. apply (remarkInclude_reportsReads proc sch tree (fileOf src o)). }
    destruct (process _ _ _ _) as [r w']. simpl in *.
    destruct Hstep as (rd & added & Hr' & Hd' & Hall).
    exists rd, added. rewrite Hr', Hd', Hr, Hd. auto.
Qed.

Lemma runCall_count (c : Call) (w : World) :
  (constructed w ≤ constructed (runCall c w) ≤ S (constructed w))%nat.
Proof.
  destruct (runCall_cache c w) as [_ ->]. rewrite cachedProcessor_count.
  destruct (stale _ _ w); lia.
Qed.

(** X15. [createProcessor] is called at most once in a call: over a
    sequence of calls the count of constructions never goes down and grows
    by no more than the number of calls. *)
Theorem one_construction_per_call_at_most (cs : list Call) (w : World) :
  (constructed w ≤ constructed (runCalls cs w) ≤ constructed w + length cs)%nat.
Proof.
  revert w. induction cs as [|c cs IH]; intros w; simpl; [lia|].
  change (foldl (λ w c, runCall c w) (runCall c w) cs) with (runCalls cs (runCall c w)).
  specialize (IH (runCall c w)). pose proof (runCall_count c w). lia.
Qed.

End ReportExtras.

(** *** The further properties on the sample documents *)

Lemma hit_keeps_first_options_witness :
  let o := Sample.atDocs in
  let o' := Sample.withRecorder 7 Sample.atDocs in
  let w1 := (buildMDX (H := Sample.host) "docs" "h1" "plain" o [] emptyWorld).2 in
  (cachedProcessor (H := Sample.host) "docs" "h1" o' w1).1
  = inr {| processor := {| pid := constructed emptyWorld;
                           settings := processorOptions (H := Sample.host)
                                         (resolveFormat o) o |};
           configHash := "h1" |}
  ∧ (cachedProcessor (H := Sample.host) "docs" "h1" o' w1).2 = w1.
Proof.
  intros o o'.
  apply (hit_keeps_first_options (H := Sample.host) "docs" "h1" "plain" o o' []
           emptyWorld); reflexivity.
Defined.

Lemma failed_construction_is_retried_witness :
  let o := Sample.withOther "filepath" "a.mdx" Sample.noOptions in
  let w' := (buildMDX (H := Sample.host) "docs" "h1" "plain" o [] emptyWorld).2 in
  stale (cacheKey "docs" (formatString (resolveFormat o))) "h1" w' = true
  ∧ (buildMDX (H := Sample.host) "docs" "h1" "one" o [] w').1
    = inl (HostError "Unexpected removed option `filepath`")
  ∧ constructed (buildMDX (H := Sample.host) "docs" "h1" "one" o [] w').2
    = S (S (constructed emptyWorld)).
Proof.
  intros o.
  apply (failed_construction_is_retried (H := Sample.host) "docs" "h1" "plain" "one" o
           [] [] emptyWorld (HostError "Unexpected removed option `filepath`"));
    reflexivity.
Defined.

Lemma cache_entries_come_from_calls_witness :
  let history := [Sample.mkCall "docs" "h1" "plain" Sample.atDocs] in
  let e := {| processor := Sample.sampleProcessor; configHash := "h1" |} in
  ∃ call, call ∈ history ∧ callKey call = "docs:mdx" ∧ callHash call = configHash e
          ∧ settings (processor e)
            = processorOptions (H := Sample.host)
                (resolveFormat (callOptions call)) (callOptions call).
Proof.
  intros history e.
  apply (cache_entries_come_from_calls (H := Sample.host) history "docs:mdx" e).
  reflexivity.
Defined.

Lemma include_free_tree_unchanged_witness :
  let file := Sample.fileAt None None in
  remarkInclude (H := Sample.host) Sample.sampleProcessor [] Sample.docInDiv file emptyWorld
  = (Fulfilled Sample.docInDiv, emptyWorld).
Proof.
  intros file.
  apply (include_free_tree_unchanged (H := Sample.host) Sample.sampleProcessor []
           Sample.docInDiv file emptyWorld).
  reflexivity.
Defined.

Lemma build_without_path_reads_nothing_witness :
  reads (buildMDX (H := Sample.host) "docs" "h1" "one" Sample.noOptions [] emptyWorld).2
  = reads emptyWorld
  ∧ dependencies
      (buildMDX (H := Sample.host) "docs" "h1" "one" Sample.noOptions [] emptyWorld).2
    = dependencies emptyWorld.
Proof.
  apply (build_without_path_reads_nothing (H := Sample.host) "docs" "h1" "one"
           Sample.noOptions [] emptyWorld).
  reflexivity.
Defined.

Lemma only_resolved_sites_are_written_witness :
  let file := Sample.fileAt (Some "/docs/a.mdx") None in
  node_at [1] (treeAfter (H := Sample.host) Sample.sampleProcessor [] Sample.docMissing
                 file emptyWorld)
  = node_at [1] Sample.docMissing.
Proof.
  intros file.
  apply (only_resolved_sites_are_written (H := Sample.host) Sample.sampleProcessor []
           Sample.docMissing file emptyWorld [1]).
  intros t Ht Hres.
  assert (Hq : located (H := Sample.host) file Sample.docMissing emptyWorld
               = [ {| site := [0]; targetPath := "/docs/b.mdx" |};
                   {| site := [1]; targetPath := "/docs/nowhere.mdx" |} ])
    by reflexivity.
  rewrite Hq in Ht.
  apply elem_of_cons in Ht as [->|Ht].
  - split; intros Hpre; apply prefix_cons_inv_1 in Hpre; discriminate.
  - apply list_elem_of_singleton in Ht as ->. discriminate.
Defined.

Lemma failed_include_keeps_directive_witness :
  let file := Sample.fileAt (Some "/docs/a.mdx") None in
  let t := {| site := [1]; targetPath := "/docs/nowhere.mdx" |} in
  ∃ n, node_at (site t) Sample.docMissing = Some n ∧ resolvable n = true
       ∧ node_at (site t)
           (treeAfter (H := Sample.host) Sample.sampleProcessor [1] Sample.docMissing
              file emptyWorld)
         = Some n.
Proof.
  intros file t.
  apply (failed_include_keeps_directive (H := Sample.host) "/docs/a.mdx"
           Sample.sampleProcessor [1] file Sample.docMissing emptyWorld t).
  - reflexivity.
  - reflexivity.
  - assert (Hq : located (H := Sample.host) file Sample.docMissing emptyWorld
                 = [ {| site := [0]; targetPath := "/docs/b.mdx" |}; t ])
      by reflexivity.
    rewrite Hq. apply list_elem_of_further, list_elem_of_here.
  - reflexivity.
Defined.

Lemma tree_independent_of_completion_order_witness :
  let file := Sample.fileAt (Some "/docs/a.mdx") None in
  treeAfter (H := Sample.host) Sample.sampleProcessor [] Sample.docTwo file emptyWorld
  = treeAfter (H := Sample.host) Sample.sampleProcessor [1] Sample.docTwo file emptyWorld
  ∧ treeAfter (H := Sample.host) Sample.sampleProcessor [] Sample.docTwo file emptyWorld
    = foldl (applyResolved (H := Sample.host) Sample.sampleProcessor) Sample.docTwo
        (located (H := Sample.host) file Sample.docTwo emptyWorld).
Proof.
  intros file.
  apply (tree_independent_of_completion_order (H := Sample.host) "/docs/a.mdx"
           Sample.sampleProcessor [] [1] file Sample.docTwo emptyWorld); reflexivity.
Defined.

